(** * Verification of [white_box/scripts/eval_loop.py]

    A shallow embedding of the tuned-lens evaluation loop and the properties
    of its on-disk output, its metrics and its accumulators.

    Conventions of the embedding.
    - Tensors are nested lists indexed (batch, sequence, vocabulary); their
      scalars are real numbers, so arithmetic is exact: rounding, overflow and
      NaN of the floating-point kernels are outside the model.  What is
      proved about the VALUE of a metric (a sign, a bound, an equality of
      numbers) is therefore a statement about exact arithmetic, and says so;
      what is proved about shapes, positions, alignment, names, files and
      exceptions does not depend on the arithmetic.
    - Python exceptions are an explicit outcome, [Raise e]; the world (files,
      forward hooks, the log of [th.save] calls) survives a raise.
    - The collaborators that [eval_loop] only calls (the model, the lens, the
      statistics classes, the data loader, the clock behind the progress bar)
      are variables of the section [EvalLoop]. *)

From Stdlib Require Import Reals Lra.
From stdpp Require Import gmap strings list fin_maps pretty.

Local Open Scope string_scope.
Local Open Scope list_scope.

(** ** Exceptions and the world *)

Inductive exn : Type :=
  | ValueError
  | KeyError
  | IndexError
  | RuntimeError
  | FileExistsError
  | FileNotFoundError
  | NotADirectoryError
  | ModelError (code : nat).

Inductive result (A : Type) : Type :=
  | Ok (a : A)
  | Raise (e : exn).
Arguments Ok {A} a.
Arguments Raise {A} e.

Definition is_Ok {A} (r : result A) : Prop :=
  match r with
  | Ok _ => True
  | Raise _ => False
  end.

(** Monad of pure fallible computations (shape and index checks of the
    tensor kernels, file-system calls). *)
Definition rbind {A B} (r : result A) (k : A → result B) : result B :=
  match r with
  | Ok a => k a
  | Raise e => Raise e
  end.

Global Instance result_ret : MRet result := λ A a, Ok a.
Global Instance result_bind : MBind result := λ A B k r, rbind r k.

Fixpoint rmapM {A B} (f : A → result B) (l : list A) : result (list B) :=
  match l with
  | [] => Ok []
  | x :: l' => y ← f x; ys ← rmapM f l'; Ok (y :: ys)
  end.

(** ** Paths and the file system

    A [pathlib] path is the list of its components, LAST component first, so
    that [p.parent] is the tail and [p / c] is a cons.  The empty list is the
    anchor (the root, or the working directory for a relative path), which
    always exists and is a directory. *)

Abbreviation Path := (list string).

Definition path_join (p : Path) (c : string) : Path := c :: p.
Infix "//" := path_join (at level 40, left associativity).

Definition parent (p : Path) : Path := tail p.

Section FileSystem.
(** What a file holds is left open here; [eval_loop] stores pickled objects. *)
Context {Obj : Type}.

Inductive node : Type :=
  | Dir
  | File (content : Obj).

Inductive stat_result : Type :=
  | Found (n : node)
  | ENOENT
  | ENOTDIR.

(** Path resolution from the anchor down, as the kernel does it: a missing
    component gives ENOENT, a regular file in the middle gives ENOTDIR. *)
Fixpoint stat (fs : gmap Path node) (p : Path) : stat_result :=
  match p with
  | [] => Found Dir
  | _ :: up =>
      match stat fs up with
      | Found Dir =>
          match fs !! p with
          | Some n => Found n
          | None => ENOENT
          end
      | Found (File _) => ENOTDIR
      | ENOENT => ENOENT
      | ENOTDIR => ENOTDIR
      end
  end.

Definition is_dir (fs : gmap Path node) (p : Path) : bool :=
  match stat fs p with
  | Found Dir => true
  | _ => false
  end.

(** [os.mkdir(p)] *)
Definition os_mkdir (fs : gmap Path node) (p : Path) : result (gmap Path node) :=
  match p with
  | [] => Raise FileExistsError
  | _ :: up =>
      match stat fs up with
      | Found Dir =>
          match fs !! p with
          | Some _ => Raise FileExistsError
          | None => Ok (<[p := Dir]> fs)
          end
      | Found (File _) => Raise NotADirectoryError
      | ENOENT => Raise FileNotFoundError
      | ENOTDIR => Raise NotADirectoryError
      end
  end.

(** [Path.mkdir(self, parents, exist_ok)] of pathlib:
<<
    try: os.mkdir(self, mode)
    except FileNotFoundError:
        if not parents or self.parent == self: raise
        self.parent.mkdir(parents=True, exist_ok=True)
        self.mkdir(mode, parents=False, exist_ok=exist_ok)
    except OSError:
        if not exist_ok or not self.is_dir(): raise
>>
    The recursion on [self.parent] is structural on the path; the inner
    [self.mkdir(parents=False)] is the same [try] without the first handler. *)
Definition mkdir_leaf (exist_ok : bool) (fs : gmap Path node) (p : Path)
    : result (gmap Path node) :=
  match os_mkdir fs p with
  | Ok fs' => Ok fs'
  | Raise e => if exist_ok && is_dir fs p then Ok fs else Raise e
  end.

Fixpoint mkdir_parents (exist_ok : bool) (fs : gmap Path node) (p : Path)
    : result (gmap Path node) :=
  match os_mkdir fs p with
  | Ok fs' => Ok fs'
  | Raise FileNotFoundError =>
      match p with
      | [] => Raise FileNotFoundError
      | _ :: up =>
          fs1 ← mkdir_parents true fs up; mkdir_leaf exist_ok fs1 p
      end
  | Raise e => if exist_ok && is_dir fs p then Ok fs else Raise e
  end.

Definition mkdir (parents exist_ok : bool) (fs : gmap Path node) (p : Path)
    : result (gmap Path node) :=
  if parents then mkdir_parents exist_ok fs p else mkdir_leaf exist_ok fs p.

(** Opening [p] for writing and storing [o] in it, as [th.save(o, p)] does:
    the parent must resolve to a directory and [p] must not be one.  Torch's
    file writer reports every failure to open the file, whatever its cause,
    as a [RuntimeError]. *)
Definition write_file (fs : gmap Path node) (p : Path) (o : Obj)
    : result (gmap Path node) :=
  match p with
  | [] => Raise RuntimeError
  | _ :: up =>
      match stat fs up with
      | Found Dir =>
          match fs !! p with
          | Some Dir => Raise RuntimeError
          | _ => Ok (<[p := File o]> fs)
          end
      | _ => Raise RuntimeError
      end
  end.
End FileSystem.
Arguments node : clear implicits.
Arguments stat_result : clear implicits.

(** Every entry of the map is reachable from the anchor, as what it is. *)
Definition wf_fs {Obj} (fs : gmap Path (node Obj)) : Prop :=
  ∀ p n, fs !! p = Some n → stat fs p = Found n.

(** ** Tensors

    [Tensor3] is (batch, sequence, vocabulary-or-hidden); [Tensor2] is what a
    reduction over the last axis leaves; [Tensor1] is a flattened vector.
    Token ids are integers. *)

Abbreviation Tensor1 := (list R).
Abbreviation Tensor2 := (list (list R)).
Abbreviation Tensor3 := (list (list (list R))).
Abbreviation IntTensor2 := (list (list Z)).

(** Apply [f] to every row along the last axis, and to every scalar. *)
Definition map_rows {A B} (f : list A → B) (t : list (list (list A)))
    : list (list B) :=
  (λ s : list (list A), f <$> s) <$> t.

Definition map_scalars {A B} (f : A → B) (t : list (list (list A)))
    : list (list (list B)) :=
  map_rows (λ row : list A, f <$> row) t.

Definition sum_list (l : list R) : R := foldr Rplus 0%R l.

(** [x.log_softmax(dim=-1)] on one vocabulary row. *)
Definition log_softmax_row (x : list R) : list R :=
  let lse := ln (sum_list (exp <$> x)) in
  (λ xi, (xi - lse)%R) <$> x.

Definition log_softmax (t : Tensor3) : Tensor3 := map_rows log_softmax_row t.

(** [x.exp()] and unary minus, element-wise. *)
Definition t_exp (t : Tensor3) : Tensor3 := map_scalars exp t.
Definition t_neg (t : Tensor3) : Tensor3 := map_scalars Ropp t.

(** Pairing two lists of the same length; a mismatch is torch's shape
    error. *)
Fixpoint zipM {A B C} (f : A → B → result C) (xs : list A) (ys : list B)
    : result (list C) :=
  match xs, ys with
  | [], [] => Ok []
  | x :: xs', y :: ys' => z ← f x y; zs ← zipM f xs' ys'; Ok (z :: zs)
  | _, _ => Raise RuntimeError
  end.

(** Element-wise binary kernels.  Torch broadcasts the operands against
    each other: along every axis the two extents are equal, or one of them is
    1 and its single entry is repeated along the axis; any other pair of
    extents is torch's shape error.  (A nested list does not record the
    extents below an empty axis, so these are not compared.) *)
Definition broadcastM {A B C} (f : A → B → result C) (xs : list A) (ys : list B)
    : result (list C) :=
  if decide (length xs = length ys) then zipM f xs ys
  else
    match xs, ys with
    | [x], _ => rmapM (f x) ys
    | _, [y] => rmapM (λ x, f x y) xs
    | _, _ => Raise RuntimeError
    end.

Definition elementwise (op : R → R → R) (a b : Tensor3) : result Tensor3 :=
  broadcastM (broadcastM (broadcastM (λ x y, Ok (op x y)))) a b.

Definition t_mul := elementwise Rmult.
Definition t_sub := elementwise Rminus.

(** [th.sum(t, dim=-1)] *)
Definition sum_last (t : Tensor3) : Tensor2 := map_rows sum_list t.

(** [t.flatten(0, 1)] on a rank-3 tensor and [t.flatten()] on a rank-2 one. *)
Definition flatten {A} (t : list (list A)) : list A := concat t.

(** [x[:, 1:]] and [x[:, 0]] (the latter raises on an empty sequence axis). *)
Definition slice_from1 {A} (t : list (list A)) : list (list A) := drop 1 <$> t.

Definition select0 {A} (t : list (list A)) : result (list A) :=
  rmapM (λ row, match row with [] => Raise IndexError | x :: _ => Ok x end) t.

(** Modelled from the spec: [white_box.utils.maybe_shift_preds] is not under
    src/.  The spec: log-probabilities are "shifted by one position to align
    prediction with label", the labels being "all tokens except the first";
    so a positive shift [k] drops the last [k] sequence positions
    ([x[:, :-k]]), and a zero shift leaves the tensor as it is. *)
Definition maybe_shift_preds {A} (x : list (list A)) (shift : nat)
    : list (list A) :=
  match shift with
  | O => x
  | _ => (λ row, take (length row - shift) row) <$> x
  end.

(** [torch.nn.functional.cross_entropy(input, target, reduction="none")] with
    [input] of shape (N, C) and class-index targets of shape (N): row [i] of
    the result is [-log_softmax(input[i])[target[i]]], or 0 where the target
    is [ignore_index] (-100).  A target outside [0, C) and a row-count
    mismatch raise. *)
Definition ignore_index : Z := (-100)%Z.

Definition nll_row (x : list R) (y : Z) : result R :=
  if decide (y = ignore_index) then Ok 0%R
  else if decide (0 ≤ y)%Z then
    match log_softmax_row x !! Z.to_nat y with
    | Some lp => Ok (- lp)%R
    | None => Raise IndexError
    end
  else Raise IndexError.

Definition cross_entropy (input : Tensor2) (target : list Z) : result Tensor1 :=
  if decide (length input = length target)
  then zipM nll_row input target
  else Raise ValueError.

(** The entropy expression [th.sum(-lps.exp() * lps, dim=-1)] and the KL
    expression [th.sum(probs * (lps - lens_lps), dim=-1)] of the loop. *)
Definition entropy_of (probs lps : Tensor3) : result Tensor2 :=
  prod ← t_mul (t_neg probs) lps; Ok (sum_last prod).

Definition kl_of (final_probs final_lps lens_lps : Tensor3) : result Tensor2 :=
  diff ← t_sub final_lps lens_lps;
  prod ← t_mul final_probs diff;
  Ok (sum_last prod).

(** The row at batch index [b] and sequence position [s]. *)
Definition at_pos {A} (t : list (list A)) (b s : nat) : option A :=
  t !! b ≫= (.!! s).

(** The claims' words for one position: the sum over the vocabulary axis of
    [final_probs * (final_log_probs - lens_log_probs)], and of
    [-probs * log_probs], with [probs] the exponential of the
    log-probabilities. *)
Definition kl_row (final_lps lens_lps : list R) : R :=
  sum_list (zip_with Rmult (exp <$> final_lps) (zip_with Rminus final_lps lens_lps)).

Definition entropy_row (lps : list R) : R :=
  sum_list (zip_with Rmult (Ropp <$> (exp <$> lps)) lps).

(** In the claims' words: the loss of the prediction at position [t] of
    sequence [b], scored against the token at position [t + 1]; and a
    flattened vector that holds, sequence after sequence, one such loss for
    every position that has a next token. *)
Definition token_loss (lps : Tensor3) (input_ids : IntTensor2) (b t : nat)
    : option R :=
  lrow ← at_pos lps b t;
  y ← at_pos input_ids b (S t);
  lp ← lrow !! Z.to_nat y;
  Some (- lp)%R.

Definition scores_next_token (lps : Tensor3) (input_ids : IntTensor2)
    (ce : Tensor1) : Prop :=
  ∃ rows : list (list R),
    ce = concat rows ∧ length rows = length input_ids ∧
    ∀ b iseq, input_ids !! b = Some iseq →
      ∃ row, rows !! b = Some row ∧ length row = length iseq - 1 ∧
        ∀ t, S t < length iseq →
          ∃ v, row !! t = Some v ∧ token_loss lps input_ids b t = Some v.

(** The log-probabilities have the (batch, sequence) shape of [input_ids]. *)
Definition same_shape (lps : Tensor3) (input_ids : IntTensor2) : Prop :=
  Forall2 (λ lseq iseq, length lseq = length iseq) lps input_ids.

(** Two tensors of the same extents along all three axes: nothing is
    broadcast when they are combined. *)
Definition same_extents (a b : Tensor3) : Prop :=
  Forall2 (Forall2 (λ r1 r2 : list R, length r1 = length r2)) a b.




(** ** Data of the loop *)

(** Tensors of the three ranks the loop stores or hands on. *)
Inductive tensor : Type :=
  | T1 (t : Tensor1)
  | T2 (t : Tensor2)
  | T3 (t : Tensor3).

(** A residual stream: the ordered (layer name, tensor) pairs of the capture.
    Modelled from the spec: [ResidualStream.map] is not under src/; it is "a
    transform operation producing a derived accessor where every tensor has
    [the] transform applied, preserving layer order and names".  A transform
    that raises makes the whole [map] raise. *)
Abbreviation ResidualStream T := (list (string * T)).

Definition stream_map {T U} (f : T → result U) (stream : ResidualStream T)
    : result (ResidualStream U) :=
  rmapM (λ item, y ← f item.2; Ok (item.1, y)) stream.

(** Modelled from the spec: [ResidualStream.residuals] is not under src/.
    Of the update of [delta_stats] the spec says that it is "with the
    residuals of [rest] (successive-position differences ...)": for every
    layer and every sequence, the hidden state at a position minus the one at
    the position before it.  (The contract section of the spec words the same
    operation as "successive-layer differences"; the sentence about this call
    is the one followed.) *)
Definition successive_differences (sq : list (list R)) : list (list R) :=
  zip_with (zip_with Rminus) (drop 1 sq) sq.

Definition residuals (stream : ResidualStream Tensor3) : ResidualStream Tensor3 :=
  (λ item : string * Tensor3,
     (item.1, (successive_differences <$> item.2 : Tensor3))) <$> stream.


(** A batch of the loader: field name to integer tensor of shape
    (batch, sequence).  [batch[k]] raises KeyError on a missing field. *)
Abbreviation Batch := (gmap string IntTensor2).

Definition getitem (batch : Batch) (k : string) : result IntTensor2 :=
  match batch !! k with
  | Some v => Ok v
  | None => Raise KeyError
  end.

(** [defaultdict(dict)]: reading a missing metric gives (and stores) the
    empty dict, so [d[m][name] = v] always succeeds. *)
Abbreviation BatchOutput := (gmap string (gmap string tensor)).

Definition dd_get (d : BatchOutput) (m : string) : gmap string tensor :=
  default ∅ (d !! m).

Definition dd_set (d : BatchOutput) (m name : string) (v : tensor)
    : BatchOutput :=
  <[m := <[name := v]> (dd_get d m)]> d.

(** The lens: [len(lens)], [lens(h, idx=i)] and [lens.to_logits(h)]. *)
Record TunedLens : Type := {
  lens_len : nat;
  lens_forward : Tensor3 → nat → Tensor3;
  lens_to_logits : Tensor3 → Tensor3;
}.

(** The model: the call of the model on the batch gives [output.logits] and, through the
    capture's hooks, the hidden state of every layer in layer order; or it
    raises.  [capture_points] are the modules the capture instruments. *)
Record Model : Type := {
  forward : Batch → result (Tensor3 * ResidualStream Tensor3);
  capture_points : list string;
}.

(** The [args] namespace.  [args.limit] and [args.output] may be [None]. *)
Record Namespace : Type := {
  args_seed : Z;
  args_per_gpu_batch_size : Z;
  args_limit : option Z;
  args_output : option Path;
  args_lens : Path;
}.

(** Truth value of [args.limit]: [None] and [0] are false. *)
Definition truthy (limit : option Z) : bool :=
  match limit with
  | Some l => bool_decide (l ≠ 0%Z)
  | None => false
  end.

(** [itertools.islice(it, stop)]: [stop] must lie in [0, sys.maxsize]. *)
Definition sys_maxsize : Z := (2 ^ 63 - 1)%Z.

Definition islice {A} (it : list A) (stop : Z) : result (list A) :=
  if decide (0 ≤ stop ≤ sys_maxsize)%Z
  then Ok (take (Z.to_nat stop) it)
  else Raise ValueError.

(** The collaborators that are not under src/ and that [eval_loop] uses
    through their interface only. *)
Class Collaborators : Type := {
  (** [ResidualStats()] and [stats.update(stream)]; the updates are taken
      to accept whatever they are given *)
  ResidualStats : Type;
  ResidualStats_new : ResidualStats;
  ResidualStats_update : ResidualStats → ResidualStream tensor → ResidualStats;
  (** [LogitStats()] and [stats.update(lps, assume_normalized=flag)] *)
  LogitStats : Type;
  LogitStats_new : LogitStats;
  LogitStats_update : LogitStats → Tensor3 → bool → LogitStats;
  (** [data.shuffle(seed=s)] and the batches of [DataLoader(data, batch_size=b)] *)
  Dataset : Type;
  shuffle : Dataset → Z → Dataset;
  DataLoader : Dataset → Z → list Batch;
  (** The environment of the progress bar: whether bars are disabled
      ([disable], which the environment can set, as with TQDM_DISABLE), and
      the clock-dependent test of tqdm's iterator: [tqdm_clock k] tells
      whether enough time has passed for a refresh of the display when the
      local counter reaches [k]. *)
  tqdm_disable : bool;
  tqdm_clock : nat → bool;
}.

(** Whether the display is refreshed when the local counter of the iterator
    reaches [k]: never on a disabled bar. *)
Definition tqdm_refresh `{Collaborators} (k : nat) : bool :=
  negb tqdm_disable && tqdm_clock k.
Arguments tqdm_refresh : simpl never.

Section EvalLoop.
Context `{Collaborators}.

(** What [th.save] pickles. *)
Inductive Obj : Type :=
  | OBatch (batch_output : BatchOutput)
  | OResidualStats (stats : ResidualStats)
  | OLogitStats (stats : LogitStats).

(** The world outside the function: the file system, the forward hooks
    installed on the model, the log of completed [th.save] calls and the log
    of the batches the model was called on (both oldest first), and the rank
    of an initialised process group, if any. *)
Record World : Type := {
  fs : gmap Path (node Obj);
  hooks : list string;
  saved : list (Path * Obj);
  calls : list Batch;
  dist : option Z;
}.

Definition with_fs (w : World) (fs' : gmap Path (node Obj)) : World :=
  {| fs := fs'; hooks := hooks w; saved := saved w; calls := calls w;
     dist := dist w |}.

Definition with_hooks (w : World) (hs : list string) : World :=
  {| fs := fs w; hooks := hs; saved := saved w; calls := calls w;
     dist := dist w |}.

Definition with_saved (w : World) (l : list (Path * Obj)) : World :=
  {| fs := fs w; hooks := hooks w; saved := l; calls := calls w;
     dist := dist w |}.

Definition with_calls (w : World) (l : list Batch) : World :=
  {| fs := fs w; hooks := hooks w; saved := saved w; calls := l;
     dist := dist w |}.

(** State-and-exception monad of the loop. *)
Definition M (A : Type) : Type := World → result A * World.

#[export] Instance M_ret : MRet M := λ A a w, (Ok a, w).
#[export] Instance M_bind : MBind M := λ A B k m w,
  match m w with
  | (Ok a, w') => k a w'
  | (Raise e, w') => (Raise e, w')
  end.

Definition lift {A} (r : result A) : M A := λ w, (r, w).

(** [dist.get_rank() if dist.is_initialized() else 0] *)
Definition get_local_rank : M Z := λ w, (Ok (default 0%Z (dist w)), w).

(** [p.mkdir(exist_ok=..., parents=...)] *)
Definition path_mkdir (p : Path) (exist_ok parents : bool) : M unit := λ w,
  match mkdir parents exist_ok (fs w) p with
  | Ok fs' => (Ok (), with_fs w fs')
  | Raise e => (Raise e, w)
  end.

(** [th.save(o, p)] *)
Definition th_save (o : Obj) (p : Path) : M unit := λ w,
  match write_file (fs w) p o with
  | Ok fs' => (Ok (), with_saved (with_fs w fs') (saved w ++ [(p, o)]))
  | Raise e => (Raise e, w)
  end.

(** The call of the model on a batch: the forward pass, which may raise. *)
Definition call_model (model : Model) (batch : Batch)
    : M (Tensor3 * ResidualStream Tensor3) :=
  λ w, (forward model batch, with_calls w (calls w ++ [batch])).

(** Modelled from the spec: [record_residual_stream] is not under src/.  The
    spec: "entry as a scoped acquisition returning a stream-accessor bound to
    the model's forward pass for that call only"; "release on scope exit must
    remove any forward-pass instrumentation regardless of whether the forward
    pass raised".  Entering installs one hook per capture point; leaving the
    [with] block, normally or by an exception, removes those hooks and lets
    the exception through. *)
Definition record_residual_stream {A} (model : Model) (body : M A) : M A :=
  λ w,
    let installed := capture_points model in
    let '(r, w') := body (with_hooks w (installed ++ hooks w)) in
    (r, with_hooks w' (drop (length installed) (hooks w'))).

(** Modelled from the spec: [white_box.utils.send_to_device] is not under
    src/; it "moves an arbitrary nested batch structure to a named compute
    device".  Device placement is not part of the model, the values stay. *)
Definition send_to_device (batch : Batch) (device : Z) : Batch := batch.

(** ** The loop *)

(** The four running accumulators. *)
Record Stats : Type := {
  first_token_stats : ResidualStats;
  delta_stats : ResidualStats;
  stream_stats : ResidualStats;
  logit_stats : LogitStats;
}.

Definition new_stats : Stats :=
  {| first_token_stats := ResidualStats_new;
     delta_stats := ResidualStats_new;
     stream_stats := ResidualStats_new;
     logit_stats := LogitStats_new |}.

Definition tag2 (s : ResidualStream Tensor2) : ResidualStream tensor :=
  (λ item, (item.1, T2 item.2)) <$> s.

Definition tag3 (s : ResidualStream Tensor3) : ResidualStream tensor :=
  (λ item, (item.1, T3 item.2)) <$> s.

Fixpoint rfoldM {A S} (f : S → A → result S) (s : S) (l : list A) : result S :=
  match l with
  | [] => Ok s
  | x :: l' => s' ← f s x; rfoldM f s' l'
  end.

(** Body of [for i, (name, h) in zip(range(len(lens)), stream.items())]. *)
Definition layer_metrics (lens : TunedLens) (final_probs final_lps : Tensor3)
    (labels : IntTensor2) (batch_output : BatchOutput)
    (item : nat * (string * Tensor3)) : result BatchOutput :=
  let '(i, (name, h)) := item in
  let lens_lps := log_softmax (lens_forward lens h i) in
  let baseline_lps := log_softmax (lens_to_logits lens h) in
  ce ← cross_entropy (flatten (maybe_shift_preds baseline_lps 1)) (flatten labels);
  let batch_output := dd_set batch_output "baseline_ce" name (T1 ce) in
  ent ← entropy_of (t_exp baseline_lps) baseline_lps;
  let batch_output := dd_set batch_output "baseline_entropy" name (T2 ent) in
  ce ← cross_entropy (flatten (maybe_shift_preds lens_lps 1)) (flatten labels);
  let batch_output := dd_set batch_output "lens_ce" name (T1 ce) in
  ent ← entropy_of (t_exp lens_lps) lens_lps;
  let batch_output := dd_set batch_output "lens_entropy" name (T2 ent) in
  kl ← kl_of final_probs final_lps lens_lps;
  Ok (dd_set batch_output "lens_kl" name (T2 kl)).

(** [zip(range(len(lens)), stream.items())] stops at the shorter operand. *)
Definition paired (lens : TunedLens) (stream : ResidualStream Tensor3)
    : list (nat * (string * Tensor3)) :=
  zip (seq 0 (lens_len lens)) stream.

(** The layer names of the iterated pairs. *)
Definition layer_names (items : list (nat * (string * Tensor3))) : list string :=
  (λ item, item.2.1) <$> items.

(** Lines 53-98: from the logits and the captured stream of one batch to
    its [batch_output] and the updated accumulators. *)
Definition process_batch (lens : TunedLens) (st : Stats) (batch : Batch)
    (logits : Tensor3) (stream : ResidualStream Tensor3)
    : result (Stats * BatchOutput) :=
  let final_lps := log_softmax logits in
  let final_probs := t_exp final_lps in
  input_ids ← getitem batch "input_ids";
  let labels := slice_from1 input_ids in
  batch_output ←
    rfoldM (layer_metrics lens final_probs final_lps labels) ∅ (paired lens stream);
  first_tokens ← stream_map select0 stream;
  rest ← stream_map (λ x, Ok (slice_from1 x)) stream;
  let st :=
    {| first_token_stats := ResidualStats_update (first_token_stats st) (tag2 first_tokens);
       delta_stats := ResidualStats_update (delta_stats st) (tag3 (residuals rest));
       logit_stats := LogitStats_update (logit_stats st) final_lps true;
       stream_stats := ResidualStats_update (stream_stats st) (tag3 rest) |} in
  ce ← cross_entropy (flatten (maybe_shift_preds final_lps 1)) (flatten labels);
  let batch_output := dd_set batch_output "baseline_ce" "final" (T1 ce) in
  ent ← entropy_of final_probs final_lps;
  let batch_output := dd_set batch_output "baseline_entropy" "final" (T2 ent) in
  Ok (st, batch_output).

(** The progress bar: [total] as given to the constructor and the public
    counter [n]. *)
Record tqdm : Type := {
  tqdm_total : Z;
  tqdm_n : nat;
}.

Definition batch_file (k : nat) : string := "batch_" +:+ pretty k +:+ ".pt".

(** Lines 49-99, the body of [for batch in pbar]. *)
Definition loop_body (model : Model) (lens : TunedLens) (local_rank : Z)
    (output_dir : Path) (pbar : tqdm) (st : Stats) (batch : Batch) : M Stats :=
  let batch := send_to_device batch local_rank in
  '(logits, stream) ← record_residual_stream model (call_model model batch);
  '(st, batch_output) ← lift (process_batch lens st batch logits stream);
  th_save (OBatch batch_output) (output_dir // batch_file (tqdm_n pbar));;
  mret st.

(** Iterating a [tqdm] object (std.py, [tqdm.__iter__]):
<<
      if self.disable:
          for obj in iterable:
              yield obj
          return
      ...
      n = self.n
      try:
          for obj in iterable:
              yield obj
              n += 1
              if n - last_print_n >= self.miniters:
                  cur_t = time()
                  dt = cur_t - last_print_t
                  if dt >= mininterval and cur_t >= min_start_t:
                      self.update(n - last_print_n)
                      ...
      finally:
          self.n = n
          self.close()
>>
    The loop body runs at the [yield].  The iterator counts in its local [n];
    the public [self.n] is brought up to date only when the display is
    refreshed ([self.update]), which depends on the clock, and at the end.
    A disabled bar only hands the batches on: its [self.n] is never written.
    In [tqdm_loop], [it_n] is the local counter and [pbar] carries [self.n]. *)
Definition tqdm_set_n (pbar : tqdm) (k : nat) : tqdm :=
  {| tqdm_total := tqdm_total pbar; tqdm_n := k |}.

Fixpoint tqdm_loop {S} (body : tqdm → S → Batch → M S) (it_n : nat)
    (pbar : tqdm) (s : S) (iterable : list Batch) : M (nat * tqdm * S) :=
  match iterable with
  | [] => mret (it_n, pbar, s)
  | obj :: rest =>
      s' ← body pbar s obj;
      let it_n := Datatypes.S it_n in
      let pbar := if tqdm_refresh it_n then tqdm_set_n pbar it_n else pbar in
      tqdm_loop body it_n pbar s' rest
  end.

Definition tqdm_iter {S} (body : tqdm → S → Batch → M S) (pbar : tqdm) (s : S)
    (iterable : list Batch) : M (tqdm * S) :=
  '(it_n, pbar, s) ← tqdm_loop body (tqdm_n pbar) pbar s iterable;
  mret (if tqdm_disable then pbar else tqdm_set_n pbar it_n, s).

(** Lines 37-41: the batches to iterate and the progress-bar total. *)
Definition limit_batches (args : Namespace) (dl : list Batch)
    : result (list Batch * Z) :=
  if truthy (args_limit args) then
    let limit := default 0%Z (args_limit args) in
    dl' ← islice dl limit; Ok (dl', limit)
  else Ok (dl, Z.of_nat (length dl)).

(** Lines 43-44. *)
Definition root_dir (args : Namespace) : Path :=
  match args_output args with
  | Some output => output
  | None => args_lens args // "eval"
  end.

Definition output_dir (args : Namespace) (local_rank : Z) : Path :=
  root_dir args // ("rank_" +:+ pretty local_rank).

(** Lines 102-105. *)
Definition save_stats (st : Stats) (output_dir : Path) : M unit :=
  th_save (OResidualStats (first_token_stats st)) (output_dir // "first_token_stats.pt");;
  th_save (OResidualStats (delta_stats st)) (output_dir // "delta_stats.pt");;
  th_save (OResidualStats (stream_stats st)) (output_dir // "stream_stats.pt");;
  th_save (OLogitStats (logit_stats st)) (output_dir // "logit_stats.pt").

(** [eval_loop] returns [None]; the embedding returns the final values of
    its local variables so that statements can refer to them. *)
Record Locals : Type := {
  l_total : Z;
  l_output_dir : Path;
  l_pbar : tqdm;
  l_stats : Stats;
}.

Definition eval_loop (args : Namespace) (model : Model) (data : Dataset)
    (lens : TunedLens) : M Locals :=
  local_rank ← get_local_rank;
  let dl := DataLoader (shuffle data (args_seed args)) (args_per_gpu_batch_size args) in
  (* lens.eval() switches the lens to inference mode: no effect here *)
  let st := new_stats in
  '(dl, total) ← lift (limit_batches args dl);
  let output_dir := output_dir args local_rank in
  path_mkdir output_dir true true;;
  let pbar := {| tqdm_total := total; tqdm_n := 0 |} in
  '(pbar, st) ← tqdm_iter (loop_body model lens local_rank output_dir) pbar st dl;
  save_stats st output_dir;;
  mret {| l_total := total; l_output_dir := output_dir; l_pbar := pbar; l_stats := st |}.

(** ** A pure view of the loop

    The same computations without the world, to state what a run produced. *)

(** [stream.map(lambda x: x[:, 1:])], which cannot raise. *)
Definition rest_of (stream : ResidualStream Tensor3) : ResidualStream Tensor3 :=
  (λ item, (item.1, slice_from1 item.2)) <$> stream.

(** The computation of one iteration without its effects on the world: the
    forward pass, then lines 53-98. *)
Definition batch_step (model : Model) (lens : TunedLens) (st : Stats)
    (batch : Batch) : result (Stats * BatchOutput) :=
  '(logits, stream) ← forward model batch;
  process_batch lens st batch logits stream.

(** The same for a run of iterations: the final accumulators and the
    [batch_output] of every iteration, in order. *)
Fixpoint batch_steps (model : Model) (lens : TunedLens) (st : Stats)
    (dl : list Batch) : result (Stats * list BatchOutput) :=
  match dl with
  | [] => Ok (st, [])
  | batch :: dl' =>
      '(st1, bo) ← batch_step model lens st batch;
      '(st2, bos) ← batch_steps model lens st1 dl';
      Ok (st2, bo :: bos)
  end.

(** The values [pbar.n] shows to the [len] next iterations of [tqdm_loop],
    when the local counter is [it_n] and [pbar.n] is [n]. *)
Fixpoint pbar_ns (it_n n len : nat) : list nat :=
  match len with
  | O => []
  | Datatypes.S len' =>
      let it_n := Datatypes.S it_n in
      n :: pbar_ns it_n (if tqdm_refresh it_n then it_n else n) len'
  end.

(** The four summary files of lines 102-105, in the order they are written. *)
Definition stats_files (st : Stats) (od : Path) : list (Path * Obj) :=
  [ (od // "first_token_stats.pt", OResidualStats (first_token_stats st));
    (od // "delta_stats.pt", OResidualStats (delta_stats st));
    (od // "stream_stats.pt", OResidualStats (stream_stats st));
    (od // "logit_stats.pt", OLogitStats (logit_stats st)) ].
End EvalLoop.

(** ** A small concrete run

    Statistics objects that simply remember the updates they were given, a
    loader that yields its data set as it is, and a model of one layer over
    a vocabulary of two tokens. *)

Definition demo_refreshing (refresh : nat → bool) : Collaborators := {|
  ResidualStats := list (ResidualStream tensor);
  ResidualStats_new := [];
  ResidualStats_update := λ s x, s ++ [x];
  LogitStats := list (Tensor3 * bool);
  LogitStats_new := [];
  LogitStats_update := λ s x flag, s ++ [(x, flag)];
  Dataset := list Batch;
  shuffle := λ d _, d;
  DataLoader := λ d _, d;
  tqdm_disable := false;
  tqdm_clock := refresh;
|}.

(** The display is refreshed after every batch (slow batches)... *)
Definition demo : Collaborators := demo_refreshing (λ _, true).
(** ... or never while the loop runs (fast batches). *)
Definition demo_stale : Collaborators := demo_refreshing (λ _, false).

Definition demo_logits : Tensor3 := [[ [0%R; 0%R]; [0%R; 0%R] ]].
Definition demo_hidden : Tensor3 := [[ [1%R]; [2%R] ]].

(** The model fails on a batch that has a field ["bad"]. *)
Definition demo_model : Model := {|
  forward := λ batch,
    if decide (is_Some (batch !! "bad")) then Raise (ModelError 1)
    else Ok (demo_logits, [("layer0", demo_hidden); ("layer1", demo_hidden)]);
  capture_points := ["layer0"; "layer1"];
|}.

Definition demo_lens : TunedLens := {|
  lens_len := 1;
  lens_forward := λ _ _, demo_logits;
  lens_to_logits := λ _, demo_logits;
|}.

Definition demo_batch : Batch := {[ "input_ids" := [[0%Z; 1%Z]] ]}.
Definition demo_bad_batch : Batch := <["bad" := []]> demo_batch.

Definition demo_args (limit : option Z) (output : option Path) : Namespace := {|
  args_seed := 0;
  args_per_gpu_batch_size := 1;
  args_limit := limit;
  args_output := output;
  args_lens := ["lens"];
|}.

Definition demo_world `{Collaborators} : World :=
  {| fs := ∅; hooks := []; saved := []; calls := []; dist := None |}.


(** ** Notions used by the further properties *)

(** The file system agrees with the log of saves: from [w] to [w'] some
    saves were logged, and every path they name holds the object of its last
    save, everything else being as in [w]. *)
Definition synced `{Collaborators} (od : Path) (w w' : World) : Prop :=
  ∃ new : list (Path * Obj),
    saved w' = saved w ++ new ∧
    Forall (λ entry, ∃ name, entry.1 = od // name) new ∧
    fs w' = (File <$> list_to_map (reverse new)) ∪ fs w.


(** A world where a regular file sits where the directory [lens] should be,
    and one that holds a directory of somebody else. *)
Definition demo_blocked_world : @World demo :=
  {| fs := {[ ["lens"] := File (OLogitStats (@LogitStats_new demo)) ]};
     hooks := []; saved := []; calls := []; dist := None |}.

Definition demo_busy_world : @World demo :=
  {| fs := {[ ["other"] := Dir ]};
     hooks := []; saved := []; calls := []; dist := None |}.

(** A batch of one single-token sequence, and a lens for it. *)
Definition demo_short_logits : Tensor3 := [[ [0%R; 0%R] ]].
Definition demo_short_hidden : Tensor3 := [[ [1%R] ]].
Definition demo_short_batch : Batch := {[ "input_ids" := [[0%Z]] ]}.
Definition demo_short_lens : TunedLens := {|
  lens_len := 1;
  lens_forward := λ _ _, demo_short_logits;
  lens_to_logits := λ _, demo_short_logits;
|}.


(** * Properties *)

(** ** Sums, log-softmax and Gibbs' inequality *)

Section Numeric.
Local Open Scope R_scope.

Lemma sum_list_nil : sum_list [] = 0.
Proof. done. Qed.

Lemma sum_list_cons (x : R) (l : list R) : sum_list (x :: l) = x + sum_list l.
Proof. done. Qed.

Ltac sum_simpl :=
  repeat (rewrite ?fmap_cons, ?fmap_nil, ?sum_list_cons, ?sum_list_nil).

Lemma sum_exp_nonneg (l : list R) : 0 <= sum_list (exp <$> l).
Proof.
  induction l as [|x l IH]; sum_simpl; [lra|].
  pose proof (exp_pos x). lra.
Qed.

Lemma sum_exp_pos (l : list R) : l ≠ [] → 0 < sum_list (exp <$> l).
Proof.
  destruct l as [|x l]; [done|]. intros _. sum_simpl.
  pose proof (exp_pos x). pose proof (sum_exp_nonneg l). lra.
Qed.

Lemma sum_exp_shift (c : R) (l : list R) :
  sum_list (exp <$> ((λ x, x - c) <$> l)) = sum_list (exp <$> l) * exp (- c).
Proof.
  induction l as [|x l IH]; sum_simpl; [lra|].
  rewrite IH. unfold Rminus. rewrite exp_plus. lra.
Qed.

Lemma log_softmax_row_length (x : list R) :
  length (log_softmax_row x) = length x.
Proof. unfold log_softmax_row. by rewrite length_fmap. Qed.

Lemma log_softmax_row_normalized (x : list R) :
  x ≠ [] → sum_list (exp <$> log_softmax_row x) = 1.
Proof.
  intros Hx. unfold log_softmax_row. rewrite sum_exp_shift.
  pose proof (sum_exp_pos x Hx) as Hpos.
  rewrite exp_Ropp, exp_ln by done. by apply Rinv_r, Rgt_not_eq.
Qed.

Lemma log_softmax_row_idem (x : list R) :
  log_softmax_row (log_softmax_row x) = log_softmax_row x.
Proof.
  destruct x as [|x0 x']; [done|]. set (x := x0 :: x').
  assert (x ≠ []) as Hx by done. clearbody x.
  unfold log_softmax_row at 1.
  rewrite log_softmax_row_normalized, ln_1 by done.
  rewrite <-(list_fmap_id (log_softmax_row x)) at 2.
  apply list_fmap_ext. intros _ y _. simpl. lra.
Qed.

(** The term of Gibbs' inequality: [exp x * (x - y) >= exp x - exp y]. *)
Lemma gibbs_term (x y : R) : exp x - exp y <= exp x * (x - y).
Proof.
  pose proof (exp_ineq1_le (y - x)) as Hle.
  pose proof (exp_pos x) as Hx.
  replace (exp y) with (exp x * exp (y - x)).
  - nra.
  - rewrite <-exp_plus. f_equal. lra.
Qed.

Lemma gibbs_term_eq (x y : R) : exp x * (x - y) = exp x - exp y → x = y.
Proof.
  intros Heq. destruct (Req_dec (y - x) 0) as [|Hne]; [lra|].
  pose proof (exp_ineq1 (y - x) Hne) as Hlt.
  pose proof (exp_pos x) as Hx.
  assert (exp y = exp x * exp (y - x)) as Hy.
  { rewrite <-exp_plus. f_equal. lra. }
  nra.
Qed.

Lemma kl_row_nil : kl_row [] [] = 0.
Proof. done. Qed.

Lemma kl_row_cons (x y : R) (a b : list R) :
  kl_row (x :: a) (y :: b) = exp x * (x - y) + kl_row a b.
Proof. done. Qed.

Lemma kl_row_gibbs (a b : list R) :
  length a = length b →
  sum_list (exp <$> a) - sum_list (exp <$> b) <= kl_row a b ∧
  (kl_row a b = sum_list (exp <$> a) - sum_list (exp <$> b) → a = b).
Proof.
  revert b. induction a as [|x a IH]; intros [|y b] Hlen; simplify_eq/=.
  - rewrite kl_row_nil. sum_simpl. split; [lra|done].
  - rewrite kl_row_cons. sum_simpl. destruct (IH b) as [Hle Heq]; [done|].
    pose proof (gibbs_term x y) as Ht. split; [lra|].
    intros Hsum. f_equal.
    + apply gibbs_term_eq. lra.
    + apply Heq. lra.
Qed.

Lemma kl_row_refl (a : list R) : kl_row a a = 0.
Proof.
  induction a as [|x a IH]; [done|]. rewrite kl_row_cons, IH. lra.
Qed.

(** Gibbs' inequality for two rows of log-probabilities of the same total
    mass. *)
Lemma kl_row_nonneg (a b : list R) :
  length a = length b →
  sum_list (exp <$> a) = sum_list (exp <$> b) →
  0 <= kl_row a b ∧ (kl_row a b = 0 ↔ b = a).
Proof.
  intros Hlen Hsum. destruct (kl_row_gibbs a b Hlen) as [Hle Heq].
  split; [lra|]. split.
  - intros H0. symmetry. apply Heq. lra.
  - intros ->. apply kl_row_refl.
Qed.





End Numeric.

(** ** Fallible maps and zips *)

Lemma rbind_Ok {A B} (r : result A) (k : A → result B) (b : B) :
  r ≫= k = Ok b ↔ ∃ a, r = Ok a ∧ k a = Ok b.
Proof.
  destruct r as [a|e]; simpl; split.
  - eauto.
  - by intros (? & [= <-] & ?).
  - done.
  - by intros (? & ? & ?).
Qed.

Ltac inv_ok :=
  repeat match goal with
  | H : _ ≫= _ = Ok _ |- _ => apply rbind_Ok in H as (? & ? & H)
  | H : Ok _ = Ok _ |- _ => injection H as H
  | H : Raise _ = Ok _ |- _ => discriminate H
  end.

Lemma zipM_lookup {A B C} (f : A → B → result C) xs ys zs i :
  zipM f xs ys = Ok zs →
  match zs !! i with
  | Some z => ∃ x y, xs !! i = Some x ∧ ys !! i = Some y ∧ f x y = Ok z
  | None => xs !! i = None ∧ ys !! i = None
  end.
Proof.
  revert ys zs i. induction xs as [|x xs IH]; intros [|y ys] zs i Hz;
    simpl in Hz; inv_ok; subst; try done.
  destruct i as [|i]; simpl; [eauto|]. by apply IH.
Qed.

Lemma zipM_length {A B C} (f : A → B → result C) xs ys zs :
  zipM f xs ys = Ok zs → length xs = length ys ∧ length zs = length xs.
Proof.
  revert ys zs. induction xs as [|x xs IH]; intros [|y ys] zs Hz;
    simpl in Hz; inv_ok; subst; try done.
  simpl. destruct (IH _ _ ltac:(eassumption)). auto.
Qed.

Lemma zipM_pure {A B C} (g : A → B → C) xs ys zs :
  zipM (λ x y, Ok (g x y)) xs ys = Ok zs →
  length xs = length ys ∧ zs = zip_with g xs ys.
Proof.
  revert ys zs. induction xs as [|x xs IH]; intros [|y ys] zs Hz;
    simpl in Hz; inv_ok; subst; try done.
  destruct (IH _ _ ltac:(eassumption)) as [Hl ->]. simpl. auto.
Qed.

Lemma zipM_same_length_Ok {A B C} (g : A → B → C) xs ys :
  length xs = length ys →
  zipM (λ x y, Ok (g x y)) xs ys = Ok (zip_with g xs ys).
Proof.
  revert ys. induction xs as [|x xs IH]; intros [|y ys] Hlen; simplify_eq/=;
    [done|]. by rewrite IH.
Qed.

(** ** Positions of the element-wise kernels *)

Lemma at_pos_map_rows {A B} (f : list A → B) t b s :
  at_pos (map_rows f t) b s = f <$> at_pos t b s.
Proof.
  unfold at_pos, map_rows. rewrite list_lookup_fmap.
  destruct (t !! b) as [row|]; simpl; [|done]. by rewrite list_lookup_fmap.
Qed.

Lemma zipM_Forall2 {A B C} (f : A → B → result C) (g : A → B → C) xs ys :
  Forall2 (λ x y, f x y = Ok (g x y)) xs ys →
  zipM f xs ys = Ok (zip_with g xs ys).
Proof.
  induction 1 as [|x y xs ys Hxy _ IH]; [done|].
  cbn [zipM zip_with]. rewrite Hxy, IH. done.
Qed.

Lemma broadcastM_same_length {A B C} (f : A → B → result C) xs ys :
  length xs = length ys → broadcastM f xs ys = zipM f xs ys.
Proof. intros Hlen. unfold broadcastM. by rewrite decide_True. Qed.

(** On operands of the same extents nothing is broadcast: the kernel pairs
    the scalars position by position. *)
Lemma elementwise_zip (op : R → R → R) (a b : Tensor3) :
  same_extents a b →
  elementwise op a b = Ok (zip_with (zip_with (zip_with op)) a b).
Proof.
  intros Hab. unfold elementwise.
  rewrite broadcastM_same_length by (by eapply Forall2_length).
  apply zipM_Forall2. eapply Forall2_impl; [exact Hab|].
  intros sa sb Hs. simpl in Hs.
  rewrite broadcastM_same_length by (by eapply Forall2_length).
  apply zipM_Forall2. eapply Forall2_impl; [exact Hs|].
  intros ra rb Hr. simpl in Hr.
  rewrite broadcastM_same_length by done.
  by apply zipM_same_length_Ok.
Qed.






Lemma elementwise_same_shape (op : R → R → R) (f g : list R → list R) (a : Tensor3) :
  (∀ row, length (f row) = length (g row)) →
  elementwise op (map_rows f a) (map_rows g a)
  = Ok (map_rows (λ row, zip_with op (f row) (g row)) a).
Proof.
  intros Hfg. rewrite elementwise_zip.
  - f_equal. unfold map_rows.
    induction a as [|sq a IH]; [done|]. rewrite !fmap_cons. cbn [zip_with].
    rewrite IH. f_equal.
    clear IH. induction sq as [|row sq IH]; [done|].
    rewrite !fmap_cons. cbn [zip_with]. by rewrite IH.
  - unfold same_extents, map_rows. apply Forall2_fmap, Forall_Forall2_diag.
    apply Forall_forall. intros sq _. simpl.
    apply Forall2_fmap, Forall_Forall2_diag, Forall_forall. intros row _.
    apply Hfg.
Qed.

Lemma map_rows_compose {A B C} (f : list A → list B) (g : list B → C) t :
  map_rows g (map_rows f t) = map_rows (g ∘ f) t.
Proof.
  unfold map_rows. rewrite <-list_fmap_compose. apply list_fmap_ext.
  intros _ sq _. simpl. by rewrite <-list_fmap_compose.
Qed.

Lemma map_rows_id {A} (t : list (list (list A))) : map_rows (λ row, row) t = t.
Proof.
  unfold map_rows. rewrite <-(list_fmap_id t) at 2.
  apply list_fmap_ext. intros _ sq _. by rewrite list_fmap_id.
Qed.

Lemma entropy_of_Ok (lps : Tensor3) :
  entropy_of (t_exp lps) lps = Ok (map_rows entropy_row lps).
Proof.
  unfold entropy_of, t_mul, t_neg, t_exp, map_scalars.
  rewrite map_rows_compose. rewrite <-(map_rows_id lps) at 2.
  rewrite elementwise_same_shape by (intros; simpl; by rewrite !length_fmap).
  simpl. unfold sum_last. by rewrite map_rows_compose.
Qed.

(** ** The file system *)

Section FileSystemFacts.
Context {Obj : Type}.
Implicit Types (fs : gmap Path (node Obj)) (p q : Path) (n : node Obj).

Lemma is_dir_stat fs p : is_dir fs p = true ↔ stat fs p = Found Dir.
Proof.
  unfold is_dir. destruct (stat fs p) as [[]| |]; naive_solver.
Qed.

Lemma stat_cons_Found fs c up n :
  stat fs (c :: up) = Found n ↔ stat fs up = Found Dir ∧ fs !! (c :: up) = Some n.
Proof.
  simpl. destruct (stat fs up) as [[]| |]; try naive_solver.
  destruct (fs !! (c :: up)); naive_solver.
Qed.

Lemma is_dir_parent fs c up : is_dir fs (c :: up) = true → is_dir fs up = true.
Proof. rewrite !is_dir_stat, stat_cons_Found. tauto. Qed.

(** A directory has all its ancestors. *)
Lemma is_dir_ancestors fs p q : is_dir fs p = true → q `suffix_of` p → is_dir fs q = true.
Proof.
  intros Hp [pre ->]. induction pre as [|c pre IH]; [done|].
  apply IH. by apply is_dir_parent with c.
Qed.

(** An insertion below or beside [p] does not change how [p] resolves. *)
Lemma stat_insert_longer fs p q n :
  length p < length q → stat (<[q := n]> fs) p = stat fs p.
Proof.
  induction p as [|c up IH]; [done|]. intros Hlen. simpl in *.
  rewrite IH by lia. rewrite lookup_insert_ne; [done|].
  intros ->. simpl in Hlen. lia.
Qed.

(** An insertion at a free key keeps what was reachable. *)
Lemma stat_insert_fresh fs p q n m :
  fs !! p = None → stat fs q = Found n → stat (<[p := m]> fs) q = Found n.
Proof.
  intros Hp. revert n. induction q as [|c up IH]; [done|]. intros n.
  rewrite !stat_cons_Found. intros [Hup Hq]. split; [by apply IH|].
  rewrite lookup_insert_ne; [done|]. congruence.
Qed.

Lemma os_mkdir_Ok fs p fs' :
  os_mkdir fs p = Ok fs' ↔
  ∃ c up, p = c :: up ∧ stat fs up = Found Dir ∧ fs !! p = None ∧
          fs' = <[p := Dir]> fs.
Proof.
  unfold os_mkdir. split.
  - destruct p as [|c up]; [done|].
    destruct (stat fs up) as [[]| |] eqn:Hs; try done.
    destruct (fs !! (c :: up)) eqn:Hl; [done|].
    intros [= <-]. by exists c, up.
  - intros (c & up & -> & -> & -> & ->). done.
Qed.

Lemma os_mkdir_is_dir fs p fs' : os_mkdir fs p = Ok fs' → is_dir fs' p = true.
Proof.
  rewrite os_mkdir_Ok. intros (c & up & -> & Hup & Hnone & ->).
  rewrite is_dir_stat, stat_cons_Found, lookup_insert_eq.
  split; [|done]. rewrite stat_insert_longer; [done|simpl; lia].
Qed.

Lemma os_mkdir_wf fs p fs' : wf_fs fs → os_mkdir fs p = Ok fs' → wf_fs fs'.
Proof.
  intros Hwf Hmk q n Hq. pose proof (os_mkdir_is_dir _ _ _ Hmk) as Hdir.
  apply os_mkdir_Ok in Hmk as (c & up & -> & Hup & Hnone & ->).
  destruct (decide (q = c :: up)) as [->|Hne].
  - rewrite lookup_insert_eq in Hq. simplify_eq. by apply is_dir_stat.
  - rewrite lookup_insert_ne in Hq by done. apply stat_insert_fresh; auto.
Qed.

Lemma os_mkdir_lookup fs p fs' q :
  os_mkdir fs p = Ok fs' → q ≠ p → fs' !! q = fs !! q.
Proof.
  rewrite os_mkdir_Ok. intros (c & up & -> & _ & _ & ->) Hne.
  by rewrite lookup_insert_ne.
Qed.

Lemma os_mkdir_subseteq fs p fs' : os_mkdir fs p = Ok fs' → fs ⊆ fs'.
Proof.
  rewrite os_mkdir_Ok. intros (c & up & -> & _ & Hnone & ->).
  by apply insert_subseteq.
Qed.

Lemma mkdir_leaf_Ok fs p fs' exist_ok :
  mkdir_leaf exist_ok fs p = Ok fs' →
  os_mkdir fs p = Ok fs' ∨ (exist_ok = true ∧ is_dir fs p = true ∧ fs' = fs).
Proof.
  unfold mkdir_leaf. destruct (os_mkdir fs p); [auto|].
  destruct exist_ok, (is_dir fs p); naive_solver.
Qed.

(** [mkdir(parents=True)] on an existing directory changes nothing. *)
Lemma mkdir_parents_existing fs p :
  is_dir fs p = true → mkdir_parents true fs p = Ok fs.
Proof.
  intros Hdir. destruct p as [|c up]; [done|].
  pose proof Hdir as Hdir'.
  apply is_dir_stat, stat_cons_Found in Hdir as [Hup Hl].
  unfold mkdir_parents, os_mkdir. by rewrite Hup, Hl, Hdir'.
Qed.

Lemma mkdir_parents_Ok fs p fs' exist_ok :
  mkdir_parents exist_ok fs p = Ok fs' →
  is_dir fs' p = true ∧ fs ⊆ fs' ∧
  (∀ q, length p < length q → fs' !! q = fs !! q) ∧
  (wf_fs fs → wf_fs fs').
Proof.
  revert fs fs' exist_ok. induction p as [|c up IH]; intros fs fs' exist_ok.
  - simpl. destruct exist_ok; naive_solver.
  - intros Hmk.
    assert (os_mkdir fs (c :: up) = Ok fs' ∨
            (is_dir fs (c :: up) = true ∧ fs' = fs) ∨
            ∃ fs1, mkdir_parents true fs up = Ok fs1 ∧
                   mkdir_leaf exist_ok fs1 (c :: up) = Ok fs') as Hcases.
    { revert Hmk. unfold mkdir_parents; fold (@mkdir_parents Obj).
      destruct (os_mkdir fs (c :: up)) as [?|e] eqn:Hos; [naive_solver|].
      intros Hmk. right.
      assert ((exist_ok && is_dir fs (c :: up) = true ∧ fs' = fs) ∨
              ∃ fs1, mkdir_parents true fs up = Ok fs1 ∧
                     mkdir_leaf exist_ok fs1 (c :: up) = Ok fs') as [[Hd ->]|?].
      { destruct e;
          first [ destruct (exist_ok && is_dir fs (c :: up)) eqn:Hex;
                  [left; by injection Hmk as <-|discriminate Hmk]
                | right; destruct (mkdir_parents true fs up) as [fs1|];
                  [by exists fs1|discriminate Hmk] ]. }
      - left. by apply andb_prop in Hd as [_ ->].
      - by right. }
    clear Hmk. destruct Hcases as [Hos|[[Hd ->]|(fs1 & H1 & Hleaf)]].
    + split_and!; eauto using os_mkdir_is_dir, os_mkdir_subseteq, os_mkdir_wf.
      intros q Hq. apply (os_mkdir_lookup _ _ _ _ Hos). intros ->. lia.
    + done.
    + apply IH in H1 as (Hd1 & Hsub1 & Hlk1 & Hwf1).
      apply mkdir_leaf_Ok in Hleaf as [Hos|(_ & Hd & ->)].
      * split_and!; eauto using os_mkdir_is_dir, os_mkdir_wf.
        -- etrans; [done|]. by eapply os_mkdir_subseteq.
        -- intros q Hq. rewrite (os_mkdir_lookup _ _ _ _ Hos).
           ++ apply Hlk1. simpl in Hq. lia.
           ++ intros ->. lia.
      * split_and!; auto. intros q Hq. apply Hlk1. simpl in Hq. lia.
Qed.

(** On a well-formed file system [mkdir(parents=True, exist_ok=True)]
    succeeds unless the path runs into a regular file. *)
Lemma mkdir_parents_total fs p :
  wf_fs fs →
  stat fs p = ENOENT ∨ stat fs p = Found Dir →
  ∃ fs', mkdir_parents true fs p = Ok fs'.
Proof.
  revert fs. induction p as [|c up IH]; intros fs Hwf Hst.
  - exists fs. done.
  - destruct Hst as [Hst|Hst].
    2:{ exists fs. by apply mkdir_parents_existing, is_dir_stat. }
    assert (fs !! (c :: up) = None) as Hnone.
    { destruct (fs !! (c :: up)) as [n|] eqn:Hl; [|done].
      apply Hwf in Hl. congruence. }
    simpl in Hst. unfold mkdir_parents; fold (@mkdir_parents Obj).
    unfold os_mkdir at 1.
    destruct (stat fs up) as [[|o]| |] eqn:Hup; try done.
    + rewrite Hnone. eauto.
    + destruct (IH fs Hwf) as [fs1 H1]; [auto|]. rewrite H1. simpl.
      apply mkdir_parents_Ok in H1 as (Hd1 & _ & Hlk1 & _).
      unfold mkdir_leaf, os_mkdir. apply is_dir_stat in Hd1 as ->.
      rewrite Hlk1 by (simpl; lia). rewrite Hnone. eauto.
Qed.

Lemma write_file_Ok fs p o fs' :
  write_file fs p o = Ok fs' ↔
  ∃ c up, p = c :: up ∧ stat fs up = Found Dir ∧ fs !! p ≠ Some Dir ∧
          fs' = <[p := File o]> fs.
Proof.
  unfold write_file. split.
  - destruct p as [|c up]; [done|].
    destruct (stat fs up) as [[]| |] eqn:Hs; try done.
    destruct (fs !! (c :: up)) as [[]|] eqn:Hl; [done|..];
      intros [= <-]; by exists c, up.
  - intros (c & up & -> & -> & Hnd & ->).
    by destruct (fs !! (c :: up)) as [[]|].
Qed.

(** Writing a file into a directory keeps the directory. *)
Lemma write_file_is_dir fs c d o fs' :
  write_file fs (c :: d) o = Ok fs' → is_dir fs d = true ∧ is_dir fs' d = true.
Proof.
  rewrite write_file_Ok. intros (? & ? & [= <- <-] & Hup & _ & ->).
  rewrite !is_dir_stat, stat_insert_longer by (simpl; lia). done.
Qed.

(** Once written, a file can be written again. *)
Lemma write_file_again fs c d o :
  is_dir fs d = true → fs !! (c :: d) ≠ Some Dir →
  write_file fs (c :: d) o = Ok (<[c :: d := File o]> fs).
Proof.
  intros Hd Hnd. apply write_file_Ok. exists c, d. by apply is_dir_stat in Hd.
Qed.
End FileSystemFacts.

(** ** The loop and the world *)

Ltac bind_simpl := cbn [mbind result_bind rbind].

Ltac world_simpl :=
  cbn [fs saved calls hooks dist with_hooks with_calls with_fs with_saved].

Section LoopFacts.
Context `{Collaborators}.
Implicit Types (w : World) (st : Stats) (dl : list Batch) (pbar : tqdm).

Lemma M_bind_unfold {A B} (m : M A) (k : A → M B) w :
  (m ≫= k) w = match m w with
               | (Ok a, w') => k a w'
               | (Raise e, w') => (Raise e, w')
               end.
Proof. done. Qed.

Lemma th_save_unfold (o : Obj) (p : Path) w :
  th_save o p w = match write_file (fs w) p o with
                  | Ok fs' => (Ok (), with_saved (with_fs w fs') (saved w ++ [(p, o)]))
                  | Raise e => (Raise e, w)
                  end.
Proof. done. Qed.

(** One iteration, by cases on its three fallible steps.  Whatever happens,
    the hooks of the capture are gone afterwards. *)
Lemma loop_body_unfold model lens rank od pbar st batch w :
  loop_body model lens rank od pbar st batch w =
  let w1 := with_calls w (calls w ++ [batch]) in
  match forward model batch with
  | Raise e => (Raise e, w1)
  | Ok (logits, stream) =>
      match process_batch lens st batch logits stream with
      | Raise e => (Raise e, w1)
      | Ok (st', bo) =>
          let p := od // batch_file (tqdm_n pbar) in
          match write_file (fs w) p (OBatch bo) with
          | Raise e => (Raise e, w1)
          | Ok fs' =>
              (Ok st', with_saved (with_fs w1 fs') (saved w ++ [(p, OBatch bo)]))
          end
      end
  end.
Proof.
  unfold loop_body, send_to_device. rewrite M_bind_unfold.
  unfold record_residual_stream, call_model.
  destruct (forward model batch) as [[logits stream]|e]; cbv beta iota zeta;
    world_simpl; rewrite drop_app_length; [|done].
  rewrite M_bind_unfold. unfold lift.
  destruct (process_batch lens st batch logits stream) as [[st' bo]|e]; [|done].
  rewrite M_bind_unfold, th_save_unfold. world_simpl.
  by destruct (write_file (fs w) _ _).
Qed.

Lemma stream_map_pure {T U} (f : T → U) (stream : ResidualStream T) :
  stream_map (λ x, Ok (f x)) stream = Ok ((λ item, (item.1, f item.2)) <$> stream).
Proof.
  unfold stream_map. induction stream as [|item stream IH]; [done|].
  cbn [rmapM]. by rewrite IH.
Qed.

Lemma process_batch_Ok lens st batch logits stream st' bo :
  process_batch lens st batch logits stream = Ok (st', bo) ↔
  let final_lps := log_softmax logits in
  ∃ input_ids bo0 first_tokens ce,
    getitem batch "input_ids" = Ok input_ids ∧
    rfoldM (layer_metrics lens (t_exp final_lps) final_lps (slice_from1 input_ids))
           ∅ (paired lens stream) = Ok bo0 ∧
    stream_map select0 stream = Ok first_tokens ∧
    cross_entropy (flatten (maybe_shift_preds final_lps 1))
                  (flatten (slice_from1 input_ids)) = Ok ce ∧
    st' = {| first_token_stats :=
               ResidualStats_update (first_token_stats st) (tag2 first_tokens);
             delta_stats :=
               ResidualStats_update (delta_stats st) (tag3 (residuals (rest_of stream)));
             logit_stats := LogitStats_update (logit_stats st) final_lps true;
             stream_stats :=
               ResidualStats_update (stream_stats st) (tag3 (rest_of stream)) |} ∧
    bo = dd_set (dd_set bo0 "baseline_ce" "final" (T1 ce))
                "baseline_entropy" "final" (T2 (map_rows entropy_row final_lps)).
Proof.
  unfold process_batch. cbv zeta. rewrite stream_map_pure, entropy_of_Ok.
  split.
  - intros Hp. inv_ok. simpl in Hp. inv_ok. simplify_eq. eauto 10.
  - intros (input_ids & bo0 & ft & ce & -> & Hbo & Hft & Hce & -> & ->).
    bind_simpl. rewrite Hbo. bind_simpl. rewrite Hft. bind_simpl.
    by rewrite Hce.
Qed.

(** The loop against its pure view. *)
Lemma tqdm_loop_Ok model lens rank od dl it_n pbar st w it_n' pbar' st' w' :
  tqdm_loop (loop_body model lens rank od) it_n pbar st dl w
    = (Ok (it_n', pbar', st'), w') →
  ∃ bos,
    batch_steps model lens st dl = Ok (st', bos) ∧
    saved w' = saved w ++
      zip_with (λ n bo, (od // batch_file n, OBatch bo))
               (pbar_ns it_n (tqdm_n pbar) (length dl)) bos ∧
    calls w' = calls w ++ dl ∧
    it_n' = it_n + length dl ∧
    tqdm_total pbar' = tqdm_total pbar.
Proof.
  revert it_n pbar st w. induction dl as [|batch dl IH]; intros it_n pbar st w.
  - intros [= <- <- <- <-]. exists []. rewrite !app_nil_r.
    split_and!; try done; simpl; lia.
  - cbn [tqdm_loop batch_steps]. rewrite M_bind_unfold, loop_body_unfold.
    unfold batch_step.
    destruct (forward model batch) as [[logits stream]|e]; bind_simpl;
      cbv beta iota zeta; [|done].
    destruct (process_batch lens st batch logits stream) as [[st1 bo]|e];
      bind_simpl; cbv beta iota zeta; [|done].
    destruct (write_file (fs w) _ _) as [fs1|e]; [|done].
    intros Hrest. apply IH in Hrest as (bos & -> & Hsaved & Hcalls & -> & Htot).
    exists (bo :: bos). revert Hsaved Hcalls Htot. world_simpl.
    intros -> -> ->. rewrite <-!app_assoc. bind_simpl.
    split_and!; try done.
    + cbn [length pbar_ns zip_with app]. do 4 f_equal.
      by destruct (tqdm_refresh _).
    + simpl; lia.
    + by destruct (tqdm_refresh _).
Qed.

Lemma tqdm_loop_app {S} (body : tqdm → S → Batch → M S) pre post it_n pbar s w :
  tqdm_loop body it_n pbar s (pre ++ post) w =
  match tqdm_loop body it_n pbar s pre w with
  | (Ok (it1, pbar1, s1), w1) => tqdm_loop body it1 pbar1 s1 post w1
  | (Raise e, w1) => (Raise e, w1)
  end.
Proof.
  revert it_n pbar s w. induction pre as [|obj pre IH]; intros it_n pbar s w;
    [done|].
  cbn [app tqdm_loop]. rewrite !M_bind_unfold.
  destruct (body pbar s obj w) as [[s1|e] w1]; [|done]. apply IH.
Qed.

(** What [th.save] into the output directory leaves alone. *)
Lemma th_save_frame (o : Obj) od name w r w' :
  th_save o (od // name) w = (r, w') →
  hooks w' = hooks w ∧ dist w' = dist w ∧ calls w' = calls w ∧
  (∀ p, (length p ≤ length od)%nat → stat (fs w') p = stat (fs w) p).
Proof.
  rewrite th_save_unfold.
  destruct (write_file (fs w) (od // name) o) as [fs'|e] eqn:Hw;
    intros [= <- <-]; [|done].
  world_simpl. split_and!; try done. intros p Hp.
  apply write_file_Ok in Hw as (? & ? & _ & _ & _ & ->).
  apply stat_insert_longer. simpl. lia.
Qed.

(** What one iteration leaves alone, whatever its outcome: in particular
    the hooks of the capture are gone. *)
Lemma loop_body_frame model lens rank od pbar st batch w r w' :
  loop_body model lens rank od pbar st batch w = (r, w') →
  hooks w' = hooks w ∧ dist w' = dist w ∧ calls w' = calls w ++ [batch] ∧
  (∀ p, (length p ≤ length od)%nat → stat (fs w') p = stat (fs w) p).
Proof.
  rewrite loop_body_unfold. cbv zeta.
  destruct (forward model batch) as [[logits stream]|e];
    [|by intros [= <- <-]].
  destruct (process_batch lens st batch logits stream) as [[st1 bo]|e];
    [|by intros [= <- <-]].
  destruct (write_file (fs w) _ _) as [fs1|e] eqn:Hw; intros [= <- <-]; [|done].
  world_simpl. split_and!; try done. intros p Hp.
  apply write_file_Ok in Hw as (? & ? & _ & _ & _ & ->).
  apply stat_insert_longer. simpl. lia.
Qed.

Lemma tqdm_loop_frame model lens rank od dl it_n pbar st w r w' :
  tqdm_loop (loop_body model lens rank od) it_n pbar st dl w = (r, w') →
  hooks w' = hooks w ∧ dist w' = dist w ∧
  (∃ k, (k ≤ length dl)%nat ∧ calls w' = calls w ++ take k dl) ∧
  (∀ p, (length p ≤ length od)%nat → stat (fs w') p = stat (fs w) p).
Proof.
  revert it_n pbar st w. induction dl as [|batch dl IH]; intros it_n pbar st w.
  - intros [= <- <-]. split_and!; try done. exists 0. by rewrite app_nil_r.
  - cbn [tqdm_loop]. rewrite M_bind_unfold.
    destruct (loop_body _ _ _ _ _ _ _ w) as [[st1|e] w1] eqn:Hbody;
      apply loop_body_frame in Hbody as (Hh & Hd & Hc & Hs).
    + intros Hrest. apply IH in Hrest as (Hh' & Hd' & (k & Hk & Hc') & Hs').
      split_and!; [congruence|congruence| |].
      * exists (Datatypes.S k). split; [simpl; lia|].
        rewrite Hc', Hc, <-app_assoc. done.
      * intros p Hp. rewrite Hs', Hs by done. done.
    + intros [= <- <-]. split_and!; try done.
      exists 1. split; [simpl; lia|]. by rewrite Hc.
Qed.

Lemma save_stats_frame st od w r w' :
  save_stats st od w = (r, w') →
  hooks w' = hooks w ∧ dist w' = dist w ∧ calls w' = calls w ∧
  (∀ p, (length p ≤ length od)%nat → stat (fs w') p = stat (fs w) p).
Proof.
  unfold save_stats. rewrite M_bind_unfold.
  destruct (th_save _ (od // "first_token_stats.pt") w) as [[[]|e] w1] eqn:H1;
    apply th_save_frame in H1 as (Hh1 & Hd1 & Hc1 & Hs1);
    [|by intros [= <- <-]].
  rewrite M_bind_unfold.
  destruct (th_save _ (od // "delta_stats.pt") w1) as [[[]|e] w2] eqn:H2;
    apply th_save_frame in H2 as (Hh2 & Hd2 & Hc2 & Hs2);
    [|intros [= <- <-]; split_and!; try congruence;
      intros p Hp; by rewrite Hs2, Hs1].
  rewrite M_bind_unfold.
  destruct (th_save _ (od // "stream_stats.pt") w2) as [[[]|e] w3] eqn:H3;
    apply th_save_frame in H3 as (Hh3 & Hd3 & Hc3 & Hs3);
    [|intros [= <- <-]; split_and!; try congruence;
      intros p Hp; by rewrite Hs3, Hs2, Hs1].
  intros H4. apply th_save_frame in H4 as (Hh4 & Hd4 & Hc4 & Hs4).
  split_and!; try congruence. intros p Hp. by rewrite Hs4, Hs3, Hs2, Hs1.
Qed.

Lemma th_save_Ok (o : Obj) p w w' :
  th_save o p w = (Ok (), w') ↔
  ∃ fs', write_file (fs w) p o = Ok fs' ∧
         w' = with_saved (with_fs w fs') (saved w ++ [(p, o)]).
Proof.
  rewrite th_save_unfold. destruct (write_file (fs w) p o) as [fs'|e].
  - split; [intros [= <-]; eauto|]. by intros (? & [= <-] & ->).
  - split; [done|]. by intros (? & ? & _).
Qed.

Lemma th_save_in_dir (o : Obj) od name w :
  is_dir (fs w) od = true → fs w !! (od // name) ≠ Some Dir →
  th_save o (od // name) w
  = (Ok (), with_saved (with_fs w (<[od // name := File o]> (fs w)))
                       (saved w ++ [(od // name, o)])).
Proof.
  intros Hd Hn. rewrite th_save_unfold.
  unfold path_join. by rewrite write_file_again.
Qed.

Lemma save_stats_Ok st od w w' :
  save_stats st od w = (Ok (), w') →
  saved w' = saved w ++ stats_files st od ∧
  Forall (λ entry, fs w' !! entry.1 = Some (File entry.2)) (stats_files st od).
Proof.
  unfold save_stats. rewrite M_bind_unfold.
  destruct (th_save _ (od // "first_token_stats.pt") w) as [[[]|e] w1] eqn:H1;
    [|done]. rewrite M_bind_unfold.
  destruct (th_save _ (od // "delta_stats.pt") w1) as [[[]|e] w2] eqn:H2;
    [|done]. rewrite M_bind_unfold.
  destruct (th_save _ (od // "stream_stats.pt") w2) as [[[]|e] w3] eqn:H3;
    [|done]. intros H4.
  apply th_save_Ok in H1 as (fs1 & Hw1 & ->), H2 as (fs2 & Hw2 & ->),
    H3 as (fs3 & Hw3 & ->), H4 as (fs4 & Hw4 & ->).
  revert Hw2 Hw3 Hw4. world_simpl. intros Hw2 Hw3 Hw4.
  apply write_file_Ok in Hw1 as (? & ? & _ & _ & _ & ->),
    Hw2 as (? & ? & _ & _ & _ & ->), Hw3 as (? & ? & _ & _ & _ & ->),
    Hw4 as (? & ? & _ & _ & _ & ->).
  split; [by rewrite <-!app_assoc|].
  unfold stats_files, path_join. repeat constructor; simpl;
    by simplify_map_eq.
Qed.

Lemma save_stats_total st od w :
  is_dir (fs w) od = true →
  Forall (λ entry, fs w !! entry.1 ≠ Some Dir) (stats_files st od) →
  ∃ w', save_stats st od w = (Ok (), w').
Proof.
  intros Hd Hfree. unfold stats_files in Hfree.
  repeat (apply Forall_cons in Hfree as [? Hfree]). simpl in *.
  unfold save_stats. rewrite M_bind_unfold, th_save_in_dir by done.
  rewrite M_bind_unfold, th_save_in_dir; world_simpl.
  2:{ rewrite is_dir_stat, stat_insert_longer by (simpl; lia).
      by apply is_dir_stat. }
  2:{ unfold path_join. by rewrite lookup_insert_ne. }
  rewrite M_bind_unfold, th_save_in_dir; world_simpl.
  2:{ rewrite is_dir_stat, !stat_insert_longer by (simpl; lia).
      by apply is_dir_stat. }
  2:{ unfold path_join. by rewrite !lookup_insert_ne. }
  rewrite th_save_in_dir; world_simpl; [eauto| |].
  - rewrite is_dir_stat, !stat_insert_longer by (simpl; lia).
    by apply is_dir_stat.
  - unfold path_join. by rewrite !lookup_insert_ne.
Qed.

Lemma path_mkdir_unfold p exist_ok parents w :
  path_mkdir p exist_ok parents w =
  match mkdir parents exist_ok (fs w) p with
  | Ok fs' => (Ok (), with_fs w fs')
  | Raise e => (Raise e, w)
  end.
Proof. done. Qed.

(** A disabled bar keeps its counter through the whole loop. *)
Lemma tqdm_loop_disabled {S} (body : tqdm → S → Batch → M S) dl it_n pbar s w
    it_n' pbar' s' w' :
  tqdm_disable = true →
  tqdm_loop body it_n pbar s dl w = (Ok (it_n', pbar', s'), w') →
  pbar' = pbar.
Proof.
  intros Hdis. revert it_n s w.
  induction dl as [|batch dl IH]; intros it_n s w.
  - by intros [= _ <- _ _].
  - cbn [tqdm_loop]. rewrite M_bind_unfold.
    destruct (body pbar s batch w) as [[s1|e] w1]; [|done].
    cbv beta iota zeta. unfold tqdm_refresh. rewrite Hdis.
    cbn [negb andb]. apply IH.
Qed.

(** [eval_loop], by cases on its fallible steps. *)
Lemma eval_loop_unfold args model data lens w :
  eval_loop args model data lens w =
  let local_rank := default 0%Z (dist w) in
  let od := output_dir args local_rank in
  match limit_batches args (DataLoader (shuffle data (args_seed args))
                                       (args_per_gpu_batch_size args)) with
  | Raise e => (Raise e, w)
  | Ok (dl, total) =>
      match mkdir true true (fs w) od with
      | Raise e => (Raise e, w)
      | Ok fs0 =>
          match tqdm_loop (loop_body model lens local_rank od) 0
                  {| tqdm_total := total; tqdm_n := 0 |} new_stats dl
                  (with_fs w fs0) with
          | (Raise e, w1) => (Raise e, w1)
          | (Ok (it_n, pbar, st), w1) =>
              match save_stats st od w1 with
              | (Raise e, w2) => (Raise e, w2)
              | (Ok _, w2) =>
                  (Ok {| l_total := total; l_output_dir := od;
                         l_pbar := if tqdm_disable then pbar
                                   else tqdm_set_n pbar it_n;
                         l_stats := st |}, w2)
              end
          end
      end
  end.
Proof.
  unfold eval_loop. rewrite M_bind_unfold. unfold get_local_rank.
  cbv beta iota zeta. rewrite M_bind_unfold. unfold lift.
  destruct (limit_batches _ _) as [[dl total]|e]; [|done].
  rewrite M_bind_unfold, path_mkdir_unfold.
  destruct (mkdir true true (fs w) _) as [fs0|e]; [|done].
  rewrite M_bind_unfold. unfold tqdm_iter. rewrite M_bind_unfold.
  cbn [tqdm_n].
  destruct (tqdm_loop _ _ _ _ _ _) as [[[[it_n pbar] st]|e] w1]; [|done].
  cbv beta iota zeta. unfold mret at 1, M_ret at 1. rewrite M_bind_unfold.
  by destruct (save_stats st _ w1) as [[[]|e] w2].
Qed.
End LoopFacts.

(** ** The claims about a run *)

Section Claims.
Context `{Collaborators}.

Lemma with_fs_id (w : World) : with_fs w (fs w) = w.
Proof. by destruct w. Qed.

Lemma path_mkdir_existing p (w : World) :
  is_dir (fs w) p = true → path_mkdir p true true w = (Ok (), w).
Proof.
  intros Hd. rewrite path_mkdir_unfold. unfold mkdir.
  by rewrite mkdir_parents_existing, with_fs_id.
Qed.

Lemma eval_loop_output_dir args model data lens w l w' :
  eval_loop args model data lens w = (Ok l, w') →
  let od := output_dir args (default 0%Z (dist w)) in
  l_output_dir l = od ∧ is_dir (fs w') od = true ∧ dist w' = dist w ∧
  hooks w' = hooks w.
Proof.
  rewrite eval_loop_unfold. cbv zeta.
  destruct (limit_batches _ _) as [[dl total]|e]; [|done].
  destruct (mkdir true true (fs w) _) as [fs0|e] eqn:Hmk; [|done].
  destruct (tqdm_loop _ _ _ _ _ _) as [[[[it_n pbar] st]|e] w1] eqn:Hloop;
    [|done].
  destruct (save_stats st _ w1) as [[[]|e] w2] eqn:Hsave; [|done].
  intros [= <- <-]. split; [done|].
  apply mkdir_parents_Ok in Hmk as (Hd & _).
  apply tqdm_loop_frame in Hloop as (Hh1 & Hd1 & _ & Hs1).
  apply save_stats_frame in Hsave as (Hh2 & Hd2 & _ & Hs2).
  revert Hh1 Hd1 Hs1. world_simpl. intros Hh1 Hd1 Hs1.
  split_and!; [|congruence|congruence].
  rewrite is_dir_stat, Hs2, Hs1 by done. by apply is_dir_stat.
Qed.

Lemma batch_steps_length model lens st dl st' bos :
  batch_steps model lens st dl = Ok (st', bos) → length bos = length dl.
Proof.
  revert st st' bos. induction dl as [|batch dl IH]; intros st st' bos.
  - by intros [= <- <-].
  - cbn [batch_steps]. intros Hs. inv_ok.
    destruct x as [st1 bo]. inv_ok. destruct x as [st2 bos']. inv_ok.
    simplify_eq. simpl. f_equal. by eapply IH.
Qed.

Lemma pbar_ns_length it_n n len : length (pbar_ns it_n n len) = len.
Proof.
  revert it_n n. induction len as [|len IH]; intros it_n n; [done|].
  simpl. by rewrite IH.
Qed.

(** A run that completes, in full. *)
Lemma eval_loop_Ok args model data lens w l w' :
  eval_loop args model data lens w = (Ok l, w') →
  let od := output_dir args (default 0%Z (dist w)) in
  ∃ dl bos,
    limit_batches args (DataLoader (shuffle data (args_seed args))
                                   (args_per_gpu_batch_size args))
      = Ok (dl, l_total l) ∧
    batch_steps model lens new_stats dl = Ok (l_stats l, bos) ∧
    saved w' = saved w ++
      zip_with (λ n bo, (od // batch_file n, OBatch bo))
               (pbar_ns 0 0 (length dl)) bos ++
      stats_files (l_stats l) od ∧
    calls w' = calls w ++ dl ∧
    l_pbar l = {| tqdm_total := l_total l;
                  tqdm_n := if tqdm_disable then 0 else length dl |} ∧
    l_output_dir l = od ∧
    Forall (λ entry, fs w' !! entry.1 = Some (File entry.2))
           (stats_files (l_stats l) od).
Proof.
  rewrite eval_loop_unfold. cbv zeta.
  destruct (limit_batches _ _) as [[dl total]|e]; [|done].
  destruct (mkdir true true (fs w) _) as [fs0|e] eqn:Hmk; [|done].
  destruct (tqdm_loop _ _ _ _ _ _) as [[[[it_n pbar] st]|e] w1] eqn:Hloop;
    [|done].
  destruct (save_stats st _ w1) as [[[]|e] w2] eqn:Hsave; [|done].
  intros [= <- <-]. cbn [l_total l_stats l_pbar l_output_dir].
  pose proof (λ Hdis, tqdm_loop_disabled _ _ _ _ _ _ _ _ _ _ Hdis Hloop) as Hpb.
  apply tqdm_loop_Ok in Hloop as (bos & Hsteps & Hsaved & Hcalls & -> & Htot).
  pose proof (save_stats_frame _ _ _ _ _ Hsave) as (_ & _ & Hcalls' & _).
  apply save_stats_Ok in Hsave as [Hsaved' Hfiles].
  revert Hsaved Hcalls Htot. world_simpl. intros Hsaved Hcalls Htot.
  exists dl, bos. split_and!; try done.
  - by rewrite Hsaved', Hsaved, <-app_assoc.
  - by rewrite Hcalls'.
  - destruct tqdm_disable; [by rewrite Hpb|].
    unfold tqdm_set_n. by rewrite Htot.
Qed.

(** C1 (as amended).  The output directory is [<output>/rank_<rank>] when
    [args.output] is given and [<lens>/eval/rank_<rank>] otherwise.  On a
    well-formed file system where no regular file is in the way, it is
    created together with its missing parents; creating it when it already
    is a directory succeeds and changes nothing; and a run that completes
    leaves it a directory, so that the creation step of a second run for
    the same rank and path succeeds. *)
Theorem C1_output_directory (args : Namespace) (w : World) :
  let rank := default 0%Z (dist w) in
  let od := output_dir args rank in
  od = match args_output args with
       | Some output => output // ("rank_" +:+ pretty rank)
       | None => args_lens args // "eval" // ("rank_" +:+ pretty rank)
       end ∧
  (wf_fs (fs w) → stat (fs w) od = ENOENT ∨ stat (fs w) od = Found Dir →
   ∃ w0, path_mkdir od true true w = (Ok (), w0) ∧
         ∀ q, q `suffix_of` od → is_dir (fs w0) q = true) ∧
  (is_dir (fs w) od = true → path_mkdir od true true w = (Ok (), w)) ∧
  (∀ model data lens l w',
     eval_loop args model data lens w = (Ok l, w') →
     l_output_dir l = od ∧
     (∀ q, q `suffix_of` od → is_dir (fs w') q = true) ∧
     path_mkdir od true true w' = (Ok (), w')).
Proof.
  cbv zeta. split_and!.
  - unfold output_dir, root_dir. by destruct (args_output args).
  - intros Hwf Hst. destruct (mkdir_parents_total _ _ Hwf Hst) as [fs0 Hmk].
    exists (with_fs w fs0). rewrite path_mkdir_unfold. unfold mkdir.
    rewrite Hmk. split; [done|]. intros q Hq.
    apply mkdir_parents_Ok in Hmk as (Hd & _). by eapply is_dir_ancestors.
  - apply path_mkdir_existing.
  - intros model data lens l w' Hrun.
    apply eval_loop_output_dir in Hrun as (Hod & Hd & _).
    split_and!; [done| |by apply path_mkdir_existing].
    intros q Hq. by eapply is_dir_ancestors.
Qed.


(** C2 (as amended).  With [args.limit = 0] the limit is not applied (0 is
    false in [if args.limit:]): the whole loader is iterated with its length
    as total; a run that completes has called the model on every batch, has
    saved one [batch_output] per batch, has created the output directory and
    has written the four summary files after the loop.  When the loader has
    no batch at all, no batch file is written and the summary files hold the
    initial accumulators. *)
Theorem C2_limit_zero args model data lens w :
  args_limit args = Some 0%Z →
  let dl := DataLoader (shuffle data (args_seed args))
                       (args_per_gpu_batch_size args) in
  let od := output_dir args (default 0%Z (dist w)) in
  limit_batches args dl = Ok (dl, Z.of_nat (length dl)) ∧
  (∀ l w', eval_loop args model data lens w = (Ok l, w') →
     calls w' = calls w ++ dl ∧
     is_dir (fs w') od = true ∧
     Forall (λ entry, fs w' !! entry.1 = Some (File entry.2))
            (stats_files (l_stats l) od) ∧
     ∃ bos, length bos = length dl ∧
       batch_steps model lens new_stats dl = Ok (l_stats l, bos) ∧
       saved w' = saved w ++
         zip_with (λ n bo, (od // batch_file n, OBatch bo))
                  (pbar_ns 0 0 (length dl)) bos ++
         stats_files (l_stats l) od) ∧
  (dl = [] →
   ∀ l w', eval_loop args model data lens w = (Ok l, w') →
     l_stats l = new_stats ∧ calls w' = calls w ∧
     saved w' = saved w ++ stats_files new_stats od).
Proof.
  intros Hlimit dl od.
  assert (limit_batches args dl = Ok (dl, Z.of_nat (length dl))) as Hlb.
  { unfold limit_batches. by rewrite Hlimit. }
  assert (∀ l w', eval_loop args model data lens w = (Ok l, w') →
     calls w' = calls w ++ dl ∧
     is_dir (fs w') od = true ∧
     Forall (λ entry, fs w' !! entry.1 = Some (File entry.2))
            (stats_files (l_stats l) od) ∧
     ∃ bos, length bos = length dl ∧
       batch_steps model lens new_stats dl = Ok (l_stats l, bos) ∧
       saved w' = saved w ++
         zip_with (λ n bo, (od // batch_file n, OBatch bo))
                  (pbar_ns 0 0 (length dl)) bos ++
         stats_files (l_stats l) od) as Hrun.
  { intros l w' Hrun.
    pose proof (eval_loop_output_dir _ _ _ _ _ _ _ Hrun) as (_ & Hd & _).
    apply eval_loop_Ok in Hrun
      as (dl' & bos & Hlb' & Hsteps & Hsaved & Hcalls & _ & _ & Hfiles).
    fold dl in Hlb'. rewrite Hlb in Hlb'. injection Hlb' as <- _.
    split_and!; try done. exists bos.
    split_and!; try done. by eapply batch_steps_length. }
  split_and!; try done.
  intros Hnil l w' Hrun'. apply Hrun in Hrun' as (Hcalls & _ & _ & bos & _ & Hsteps & Hsaved).
  rewrite Hnil in Hcalls, Hsteps, Hsaved. cbn [batch_steps] in Hsteps.
  injection Hsteps as Hst Hbos. rewrite app_nil_r in Hcalls.
  rewrite <-Hst, <-Hbos in Hsaved. done.
Qed.

(** C5 (as amended).  With a positive limit [n] configured, the batches
    iterated are the first [n] of the loader and the progress-bar total is
    [n]: whatever the outcome of the run, the model is called on at most [n]
    batches, a prefix of the loader's; a run that completes has called it on
    exactly the first [n].  With no limit configured, and with the limit 0
    (which [if args.limit:] takes for no limit), the whole loader is iterated
    and its length is the total. *)
Theorem C5_limit args model data lens w :
  let dl := DataLoader (shuffle data (args_seed args))
                       (args_per_gpu_batch_size args) in
  (∀ n, args_limit args = Some n → (0 < n ≤ sys_maxsize)%Z →
     limit_batches args dl = Ok (take (Z.to_nat n) dl, n) ∧
     ∀ r w', eval_loop args model data lens w = (r, w') →
       (∃ k, (Z.of_nat k ≤ n)%Z ∧ calls w' = calls w ++ take k dl) ∧
       ∀ l, r = Ok l →
         calls w' = calls w ++ take (Z.to_nat n) dl ∧
         tqdm_total (l_pbar l) = n) ∧
  (args_limit args = None →
     limit_batches args dl = Ok (dl, Z.of_nat (length dl)) ∧
     ∀ l w', eval_loop args model data lens w = (Ok l, w') →
       calls w' = calls w ++ dl ∧
       tqdm_total (l_pbar l) = Z.of_nat (length dl)) ∧
  (args_limit args = Some 0%Z →
     limit_batches args dl = Ok (dl, Z.of_nat (length dl)) ∧
     ∀ l w', eval_loop args model data lens w = (Ok l, w') →
       calls w' = calls w ++ dl ∧
       tqdm_total (l_pbar l) = Z.of_nat (length dl)).
Proof.
  intros dl.
  assert (limit_batches args dl = Ok (dl, Z.of_nat (length dl)) →
     ∀ l w', eval_loop args model data lens w = (Ok l, w') →
       calls w' = calls w ++ dl ∧
       tqdm_total (l_pbar l) = Z.of_nat (length dl)) as Hwhole.
  { intros Hlb l w' Hrun. apply eval_loop_Ok in Hrun
        as (dl' & bos & Hlb' & _ & _ & Hcalls & Hpbar & _).
    fold dl in Hlb'. rewrite Hlb in Hlb'. injection Hlb' as <- Htot.
    rewrite Hpbar, Hcalls. done. }
  split; [|split].
  - intros n Hlimit Hn.
    assert (limit_batches args dl = Ok (take (Z.to_nat n) dl, n)) as Hlb.
    { unfold limit_batches, islice. rewrite Hlimit. simpl.
      rewrite bool_decide_eq_true_2 by lia. rewrite decide_True by lia. done. }
    split; [done|]. intros r w' Hrun. split.
    + revert Hrun. rewrite eval_loop_unfold. cbv zeta. fold dl. rewrite Hlb.
      destruct (mkdir true true (fs w) _) as [fs0|e].
      2:{ intros [= <- <-]. exists 0%nat. rewrite take_0, app_nil_r. split; [lia|done]. }
      destruct (tqdm_loop _ _ _ _ _ _) as [[[[it_n pbar] st]|e] w1] eqn:Hloop;
        apply tqdm_loop_frame in Hloop as (_ & _ & (k & Hk & Hcalls) & _);
        revert Hcalls; world_simpl; intros Hcalls.
      * destruct (save_stats st _ w1) as [[[]|e] w2] eqn:Hsave;
          apply save_stats_frame in Hsave as (_ & _ & Hcalls' & _);
          intros [= <- <-]; exists k; rewrite Hcalls', Hcalls;
          rewrite length_take in Hk; rewrite take_take;
          (split; [lia|]); do 2 f_equal; lia.
      * intros [= <- <-]. exists k. rewrite Hcalls.
        rewrite length_take in Hk. rewrite take_take.
        split; [lia|]. do 2 f_equal. lia.
    + intros l ->. apply eval_loop_Ok in Hrun
        as (dl' & bos & Hlb' & _ & _ & Hcalls & Hpbar & _).
      fold dl in Hlb'. rewrite Hlb in Hlb'. injection Hlb' as <- Htot.
      rewrite Hpbar, Hcalls. done.
  - intros Hlimit.
    assert (limit_batches args dl = Ok (dl, Z.of_nat (length dl))) as Hlb.
    { unfold limit_batches. by rewrite Hlimit. }
    split; [done|]. by apply Hwhole.
  - intros Hlimit.
    assert (limit_batches args dl = Ok (dl, Z.of_nat (length dl))) as Hlb.
    { unfold limit_batches. by rewrite Hlimit. }
    split; [done|]. by apply Hwhole.
Qed.

(** ** What the accumulators are given *)







End Claims.

Lemma is_Ok_inv {A} (r : result A) : is_Ok r → ∃ a, r = Ok a.
Proof. destruct r; [eauto|done]. Qed.

Lemma run_eta {A W} (run : result A * W) (a : A) :
  run.1 = Ok a → run = (Ok a, run.2).
Proof. destruct run as [r w]. simpl. by intros ->. Qed.

Lemma C1_output_directory_witness :
  let run := @eval_loop demo (demo_args None None) demo_model [demo_batch]
               demo_lens demo_world in
  path_mkdir (output_dir (demo_args None None) 0) true true run.2
  = (Ok (), run.2).
Proof.
  intros run.
  assert (∃ l, run.1 = Ok l) as [l Hrun].
  { eexists. vm_compute. reflexivity. }
  apply run_eta in Hrun.
  destruct (@C1_output_directory demo (demo_args None None) demo_world)
    as (_ & _ & _ & Hruns).
  destruct (Hruns _ _ _ _ _ Hrun) as (_ & _ & Hmk). exact Hmk.
Defined.

Lemma C1_counterexample :
  let run := @eval_loop demo (demo_args None (Some ["out"])) demo_model
               [demo_batch] demo_lens demo_world in
  ∃ l, run.1 = Ok l ∧
    l_output_dir l = ["out"] // "rank_0" ∧
    l_output_dir l ≠ ["out"] // "eval" // "rank_0" ∧
    is_dir (fs run.2) (["out"] // "rank_0") = true ∧
    is_dir (fs run.2) (["out"] // "eval" // "rank_0") = false.
Proof.
  eexists. split; [vm_compute; reflexivity|]. by vm_compute.
Qed.

Lemma C2_limit_zero_witness :
  limit_batches (demo_args (Some 0%Z) None) [demo_batch; demo_batch]
  = Ok ([demo_batch; demo_batch], 2%Z).
Proof.
  exact (proj1 (@C2_limit_zero demo (demo_args (Some 0%Z) None) demo_model
                  [demo_batch; demo_batch] demo_lens demo_world eq_refl)).
Defined.

Lemma C2_counterexample :
  let run := @eval_loop demo (demo_args (Some 0%Z) None) demo_model
               [demo_batch] demo_lens demo_world in
  ∃ l, run.1 = Ok l ∧
    calls run.2 = [demo_batch] ∧
    (saved run.2).*1 = (λ name, ["lens"] // "eval" // "rank_0" // name) <$>
      ["batch_0.pt"; "first_token_stats.pt"; "delta_stats.pt";
       "stream_stats.pt"; "logit_stats.pt"] ∧
    length (first_token_stats (l_stats l)) = 1 ∧
    first_token_stats (l_stats l) ≠ first_token_stats new_stats.
Proof.
  eexists. split; [vm_compute; reflexivity|]. by vm_compute.
Qed.

(** C5, as it was stated, fails: with the limit 0 configured, the run
    processes both batches of the loader, and the total is 2. *)
Lemma C5_counterexample :
  let args := demo_args (Some 0%Z) None in
  let run := @eval_loop demo args demo_model [demo_batch; demo_batch]
               demo_lens demo_world in
  ∃ l, run.1 = Ok l ∧
    args_limit args = Some 0%Z ∧
    calls run.2 = [demo_batch; demo_batch] ∧
    l_total l = 2%Z ∧ tqdm_total (l_pbar l) = 2%Z.
Proof.
  eexists. split; [vm_compute; reflexivity|]. by vm_compute.
Qed.

Lemma C5_limit_witness :
  limit_batches (demo_args (Some 1%Z) None) [demo_batch; demo_bad_batch]
  = Ok ([demo_batch], 1%Z).
Proof.
  refine (proj1 (proj1 (@C5_limit demo (demo_args (Some 1%Z) None) demo_model
                          [demo_batch; demo_bad_batch] demo_lens demo_world)
                       1%Z eq_refl _)).
  unfold sys_maxsize. lia.
Defined.


(** ** Exceptions and the capture *)

Section Claims2.
Context `{Collaborators}.

Lemma eval_loop_hooks args model data lens w r w' :
  eval_loop args model data lens w = (r, w') → hooks w' = hooks w.
Proof.
  rewrite eval_loop_unfold. cbv zeta.
  destruct (limit_batches _ _) as [[dl total]|e]; [|by intros [= <- <-]].
  destruct (mkdir true true (fs w) _) as [fs0|e]; [|by intros [= <- <-]].
  destruct (tqdm_loop _ _ _ _ _ _) as [[[[it_n pbar] st]|e] w1] eqn:Hloop;
    apply tqdm_loop_frame in Hloop as (Hh1 & _); revert Hh1; world_simpl;
    intros Hh1; [|by intros [= <- <-]].
  destruct (save_stats st _ w1) as [[[]|e] w2] eqn:Hsave;
    apply save_stats_frame in Hsave as (Hh2 & _);
    intros [= <- <-]; by rewrite Hh2.
Qed.

(** C9.  The hooks that the capture installs for a forward pass are gone
    when the [with] block is left, whether the forward pass returned or
    raised, so every outcome of [eval_loop] leaves the hooks of the model as
    they were.  An exception raised by the forward pass, by the metric
    computation or by [th.save], for a batch or for the accumulators after
    the loop, is the outcome of [eval_loop]: the model was called once on the
    failing batch, nothing was saved for it and the later batches are not
    touched. *)
Theorem C9_release_and_propagation args model data lens w :
  let rank := default 0%Z (dist w) in
  let od := output_dir args rank in
  let dl := DataLoader (shuffle data (args_seed args))
                       (args_per_gpu_batch_size args) in
  (∀ r w', eval_loop args model data lens w = (r, w') → hooks w' = hooks w) ∧
  (∀ batch w0,
     let w1 := with_hooks w0 (capture_points model ++ hooks w0) in
     ∃ w2, call_model model batch w1 = (forward model batch, w2) ∧
           hooks w2 = capture_points model ++ hooks w0 ∧
           record_residual_stream model (call_model model batch) w0
           = (forward model batch, with_hooks w2 (hooks w0))) ∧
  (∀ pre batch post total w0 it1 pbar1 st1 w1 e,
     limit_batches args dl = Ok (pre ++ batch :: post, total) →
     path_mkdir od true true w = (Ok (), w0) →
     tqdm_loop (loop_body model lens rank od) 0
       {| tqdm_total := total; tqdm_n := 0 |} new_stats pre w0
       = (Ok (it1, pbar1, st1), w1) →
     (forward model batch = Raise e ∨
      ∃ logits stream, forward model batch = Ok (logits, stream) ∧
        (process_batch lens st1 batch logits stream = Raise e ∨
         ∃ st2 bo,
           process_batch lens st1 batch logits stream = Ok (st2, bo) ∧
           write_file (fs w1) (od // batch_file (tqdm_n pbar1)) (OBatch bo)
           = Raise e)) →
     eval_loop args model data lens w
     = (Raise e, with_calls w1 (calls w1 ++ [batch]))) ∧
  (∀ total w0 it1 pbar1 st1 w1 e w2,
     limit_batches args dl = Ok (dl, total) →
     path_mkdir od true true w = (Ok (), w0) →
     tqdm_loop (loop_body model lens rank od) 0
       {| tqdm_total := total; tqdm_n := 0 |} new_stats dl w0
       = (Ok (it1, pbar1, st1), w1) →
     save_stats st1 od w1 = (Raise e, w2) →
     eval_loop args model data lens w = (Raise e, w2)).
Proof.
  intros rank od dl. split_and!.
  - apply eval_loop_hooks.
  - intros batch w0 w1. eexists. split; [reflexivity|]. split; [done|].
    unfold record_residual_stream, call_model. world_simpl.
    by rewrite drop_app_length.
  - intros pre batch post total w0 it1 pbar1 st1 w1 e Hlb Hmk Hpre Hfail.
    rewrite eval_loop_unfold. cbv zeta. fold dl rank od. rewrite Hlb.
    rewrite path_mkdir_unfold in Hmk.
    destruct (mkdir true true (fs w) od) as [fs0|e']; [|done].
    injection Hmk as <-. rewrite tqdm_loop_app, Hpre.
    cbn [tqdm_loop]. rewrite M_bind_unfold, loop_body_unfold. cbv zeta.
    destruct Hfail as [->|(logits & stream & -> & [->|(st2 & bo & -> & ->)])];
      done.
  - intros total w0 it1 pbar1 st1 w1 e w2 Hlb Hmk Hloop Hsave.
    rewrite eval_loop_unfold. cbv zeta. fold dl rank od. rewrite Hlb.
    rewrite path_mkdir_unfold in Hmk.
    destruct (mkdir true true (fs w) od) as [fs0|e']; [|done].
    injection Hmk as <-. by rewrite Hloop, Hsave.
Qed.
End Claims2.

Lemma C9_release_and_propagation_witness :
  let run := @eval_loop demo (demo_args None None) demo_model
               [demo_batch; demo_bad_batch; demo_batch] demo_lens demo_world in
  run.1 = Raise (ModelError 1) ∧ length (calls run.2) = 2 ∧
  hooks run.2 = [].
Proof.
  intros run.
  destruct (@C9_release_and_propagation demo (demo_args None None) demo_model
              [demo_batch; demo_bad_batch; demo_batch] demo_lens demo_world)
    as (Hhooks & _ & Hprop & _).
  set (od := output_dir (demo_args None None) 0).
  set (pre := @tqdm_loop demo _ (loop_body demo_model demo_lens 0 od) 0
                {| tqdm_total := 3; tqdm_n := 0 |} new_stats [demo_batch]
                (path_mkdir od true true demo_world).2).
  assert (∃ x, pre.1 = Ok x) as [[[it1 pbar1] st1] Hpre].
  { eexists. vm_compute. reflexivity. }
  apply run_eta in Hpre.
  assert ((path_mkdir od true true (@demo_world demo)).1 = Ok ()) as Hmk.
  { vm_compute. reflexivity. }
  apply run_eta in Hmk.
  pose proof (Hprop [demo_batch] demo_bad_batch [demo_batch] 3%Z _ _ _ _ _
                (ModelError 1) eq_refl Hmk Hpre (or_introl eq_refl)) as Hrun.
  fold run in Hrun.
  pose proof (Hhooks run.1 run.2 (surjective_pairing run)) as Hh.
  split; [by rewrite Hrun|]. split; [|exact Hh].
  rewrite Hrun. cbn [snd calls with_calls]. rewrite length_app.
  assert (length (calls pre.2) = 1) as ->; [vm_compute|]; reflexivity.
Defined.

Lemma C4_stale_counter_collides :
  let run := @eval_loop demo_stale (demo_args None None) demo_model
               [demo_batch; demo_batch] demo_lens demo_world in
  let od := ["lens"] // "eval" // "rank_0" in
  (∃ l, run.1 = Ok l) ∧
  length (calls run.2) = 2 ∧
  (saved run.2).*1 = (λ name, od // name) <$>
    ["batch_0.pt"; "batch_0.pt"; "first_token_stats.pt"; "delta_stats.pt";
     "stream_stats.pt"; "logit_stats.pt"] ∧
  is_Some (fs run.2 !! (od // "batch_0.pt")) ∧
  fs run.2 !! (od // "batch_1.pt") = None.
Proof.
  split_and!; [eexists| | | |]; vm_compute; try reflexivity.
  eexists; reflexivity.
Qed.

(** ** The metrics of a batch *)

Ltac dom_cases :=
  repeat case_decide; try discriminate; try done;
  solve [ set_solver
        | exfalso; match goal with H : _ ∉ _ |- _ => apply H end;
          repeat first [ by apply list_elem_of_here | apply list_elem_of_further ] ].

Section Metrics.
Context `{Collaborators}.
Implicit Types (bo : BatchOutput) (lens : TunedLens).

Lemma dd_get_set bo m name v m' :
  dd_get (dd_set bo m name v) m'
  = if decide (m = m') then <[name := v]> (dd_get bo m) else dd_get bo m'.
Proof.
  unfold dd_set, dd_get at 1. case_decide as Hm.
  - subst. by rewrite lookup_insert_eq.
  - by rewrite lookup_insert_ne.
Qed.

Lemma dd_lookup_set bo m name v m' name' :
  dd_get (dd_set bo m name v) m' !! name'
  = if decide (m = m' ∧ name = name') then Some v else dd_get bo m' !! name'.
Proof.
  rewrite dd_get_set. case_decide as Hm; subst.
  - destruct (decide (name = name')) as [->|Hn].
    + rewrite lookup_insert_eq. by rewrite decide_True.
    + rewrite lookup_insert_ne by done. rewrite decide_False; [done|].
      by intros [_ ?].
  - rewrite decide_False; [done|]. by intros [? _].
Qed.

Lemma dd_dom_set bo m name v m' :
  dom (dd_get (dd_set bo m name v) m')
  = if decide (m = m') then {[name]} ∪ dom (dd_get bo m) else dom (dd_get bo m').
Proof. rewrite dd_get_set. case_decide; [by rewrite dom_insert_L|done]. Qed.

(** One layer of the paired iteration, when it does not raise. *)
Lemma layer_metrics_Ok lens fp fl labels bo i name h bo' :
  layer_metrics lens fp fl labels bo (i, (name, h)) = Ok bo' ↔
  let lens_lps := log_softmax (lens_forward lens h i) in
  let baseline_lps := log_softmax (lens_to_logits lens h) in
  ∃ ce_b ce_l kl,
    cross_entropy (flatten (maybe_shift_preds baseline_lps 1)) (flatten labels)
      = Ok ce_b ∧
    cross_entropy (flatten (maybe_shift_preds lens_lps 1)) (flatten labels)
      = Ok ce_l ∧
    kl_of fp fl lens_lps = Ok kl ∧
    bo' = dd_set (dd_set (dd_set (dd_set (dd_set bo
            "baseline_ce" name (T1 ce_b))
            "baseline_entropy" name (T2 (map_rows entropy_row baseline_lps)))
            "lens_ce" name (T1 ce_l))
            "lens_entropy" name (T2 (map_rows entropy_row lens_lps)))
            "lens_kl" name (T2 kl).
Proof.
  unfold layer_metrics. cbv zeta. rewrite !entropy_of_Ok. split.
  - intros Hm. inv_ok. simplify_eq. eauto 10.
  - intros (ce_b & ce_l & kl & -> & -> & -> & ->). done.
Qed.

(** The metric dictionaries after the paired iteration have one entry per
    iterated layer name, in the five per-layer metrics and nowhere else. *)
Lemma layers_dom lens fp fl labels items bo0 bo m :
  rfoldM (layer_metrics lens fp fl labels) bo0 items = Ok bo →
  dom (dd_get bo m) =
  if decide (m ∈ ["baseline_ce"; "baseline_entropy"; "lens_ce";
                  "lens_entropy"; "lens_kl"])
  then list_to_set (layer_names items) ∪ dom (dd_get bo0 m)
  else dom (dd_get bo0 m).
Proof.
  revert bo0. induction items as [|[i [name h]] items IH]; intros bo0.
  - intros [= <-]. case_decide; set_solver.
  - cbn [rfoldM]. intros Hf. inv_ok. rename x into bo1.
    apply IH in Hf. rewrite Hf.
    apply layer_metrics_Ok in H0 as (ce_b & ce_l & kl & _ & _ & _ & ->).
    rewrite !dd_dom_set. cbn [layer_names fmap list_fmap list_to_set].
    case_decide as Hm.
    + repeat (apply elem_of_cons in Hm as [->|Hm]);
        [..|by apply elem_of_nil in Hm];
        repeat (case_decide; try discriminate); set_solver.
    + rewrite !decide_False; [done|..]; intros <-; apply Hm;
        repeat first [ apply list_elem_of_here | apply list_elem_of_further ].
Qed.

Lemma layers_keep lens fp fl labels items bo0 bo m name :
  rfoldM (layer_metrics lens fp fl labels) bo0 items = Ok bo →
  name ∉ layer_names items →
  dd_get bo m !! name = dd_get bo0 m !! name.
Proof.
  revert bo0. induction items as [|[i [name' h]] items IH]; intros bo0.
  - by intros [= <-].
  - cbn [rfoldM layer_names fmap list_fmap]. intros Hf Hname. inv_ok.
    apply not_elem_of_cons in Hname as [Hne Hname].
    rewrite (IH _ Hf Hname).
    apply layer_metrics_Ok in H0 as (ce_b & ce_l & kl & _ & _ & _ & ->).
    rewrite !dd_lookup_set. repeat case_decide; naive_solver.
Qed.

(** The five entries of an iterated layer, when layer names are distinct. *)
Lemma layers_lookup lens fp fl labels items bo0 bo k i name h :
  rfoldM (layer_metrics lens fp fl labels) bo0 items = Ok bo →
  NoDup (layer_names items) →
  items !! k = Some (i, (name, h)) →
  let lens_lps := log_softmax (lens_forward lens h i) in
  let baseline_lps := log_softmax (lens_to_logits lens h) in
  ∃ ce_b ce_l kl,
    cross_entropy (flatten (maybe_shift_preds baseline_lps 1)) (flatten labels)
      = Ok ce_b ∧
    cross_entropy (flatten (maybe_shift_preds lens_lps 1)) (flatten labels)
      = Ok ce_l ∧
    kl_of fp fl lens_lps = Ok kl ∧
    dd_get bo "baseline_ce" !! name = Some (T1 ce_b) ∧
    dd_get bo "baseline_entropy" !! name
      = Some (T2 (map_rows entropy_row baseline_lps)) ∧
    dd_get bo "lens_ce" !! name = Some (T1 ce_l) ∧
    dd_get bo "lens_entropy" !! name
      = Some (T2 (map_rows entropy_row lens_lps)) ∧
    dd_get bo "lens_kl" !! name = Some (T2 kl).
Proof.
  revert bo0 k. induction items as [|[i' [name' h']] items IH]; intros bo0 k;
    [done|].
  cbn [rfoldM layer_names fmap list_fmap]. intros Hf Hnd Hk. inv_ok.
  apply NoDup_cons in Hnd as [Hfresh Hnd].
  destruct k as [|k]; [|by eapply IH].
  injection Hk as -> -> ->. cbv zeta.
  rewrite !(layers_keep _ _ _ _ _ _ _ _ _ Hf Hfresh).
  apply layer_metrics_Ok in H0 as (ce_b & ce_l & kl & Hb & Hl & Hkl & ->).
  exists ce_b, ce_l, kl. rewrite !dd_lookup_set.
  split_and!; try done; repeat case_decide; naive_solver.
Qed.

Lemma zip_seq_take {A} (s n : nat) (l : list A) :
  zip (seq s n) l = zip (seq s (n `min` length l)) (take (n `min` length l) l).
Proof.
  revert s l. induction n as [|n IH]; intros s [|x l]; try done.
  simpl. f_equal. apply IH.
Qed.

Lemma zip_seq_snd {A} (s n : nat) (l : list A) :
  (zip (seq s n) l).*2 = take n l.
Proof.
  revert s l. induction n as [|n IH]; intros s [|x l]; try done.
  simpl. f_equal. apply IH.
Qed.

Lemma paired_names lens (stream : ResidualStream Tensor3) :
  layer_names (paired lens stream)
  = (take (lens_len lens `min` length stream) stream).*1.
Proof.
  unfold layer_names, paired.
  trans ((zip (seq 0 (lens_len lens)) stream).*2.*1);
    [by rewrite <-list_fmap_compose|].
  rewrite zip_seq_snd.
  by rewrite <-take_take, (take_ge stream (length stream)).
Qed.

Lemma stream_map_names {T U} (f : T → result U) (stream : ResidualStream T) out :
  stream_map f stream = Ok out → out.*1 = stream.*1.
Proof.
  unfold stream_map. revert out.
  induction stream as [|[name x] stream IH]; intros out.
  - by intros [= <-].
  - cbn [rmapM]. intros Hm. inv_ok. simplify_eq. simpl. f_equal. by apply IH.
Qed.

(** C10.  The paired iteration runs over the first
    [min(len(lens), number of captured layers)] captured layers only, and
    after it the five per-layer metric dictionaries have entries for the
    names of exactly those layers (the two baseline dictionaries get the
    extra key ["final"] afterwards).  The accumulators are updated with
    transforms of the whole captured stream, every captured layer included,
    so a run with more captured layers than probes, or fewer, goes through
    without any report. *)
Theorem C10_paired_layers lens st batch logits stream st' bo :
  process_batch lens st batch logits stream = Ok (st', bo) →
  let k := lens_len lens `min` length stream in
  let names : gset string := list_to_set (take k stream).*1 in
  paired lens stream = zip (seq 0 k) (take k stream) ∧
  length (paired lens stream) = k ∧
  dom (dd_get bo "lens_ce") = names ∧
  dom (dd_get bo "lens_entropy") = names ∧
  dom (dd_get bo "lens_kl") = names ∧
  dom (dd_get bo "baseline_ce") = {["final"]} ∪ names ∧
  dom (dd_get bo "baseline_entropy") = {["final"]} ∪ names ∧
  ∃ first_tokens,
    stream_map select0 stream = Ok first_tokens ∧
    first_tokens.*1 = stream.*1 ∧
    (rest_of stream).*1 = stream.*1 ∧
    first_token_stats st'
      = ResidualStats_update (first_token_stats st) (tag2 first_tokens) ∧
    delta_stats st'
      = ResidualStats_update (delta_stats st) (tag3 (residuals (rest_of stream))) ∧
    stream_stats st'
      = ResidualStats_update (stream_stats st) (tag3 (rest_of stream)).
Proof.
  intros Hp k names.
  apply process_batch_Ok in Hp
    as (ids & bo0 & ft & ce & _ & Hbo0 & Hft & _ & -> & ->).
  assert (∀ m, dom (dd_get bo0 m) =
    if decide (m ∈ ["baseline_ce"; "baseline_entropy"; "lens_ce";
                    "lens_entropy"; "lens_kl"])
    then names else ∅) as Hdom.
  { intros m. rewrite (layers_dom _ _ _ _ _ _ _ m Hbo0), paired_names.
    unfold dd_get at 1 2. rewrite lookup_empty. simpl.
    case_decide; set_solver. }
  assert (∀ m, m ∈ ["baseline_ce"; "baseline_entropy"; "lens_ce";
                    "lens_entropy"; "lens_kl"] → dom (dd_get bo0 m) = names)
    as Hdom'.
  { intros m Hm. by rewrite Hdom, decide_True. }
  split_and!.
  - apply zip_seq_take.
  - unfold paired. rewrite length_zip, length_seq. done.
  - rewrite !dd_dom_set, !decide_False by done. apply Hdom'. set_solver.
  - rewrite !dd_dom_set, !decide_False by done. apply Hdom'. set_solver.
  - rewrite !dd_dom_set, !decide_False by done. apply Hdom'. set_solver.
  - rewrite !dd_dom_set, decide_False, decide_True by done.
    rewrite Hdom' by set_solver. done.
  - rewrite dd_dom_set, decide_True by done.
    rewrite dd_dom_set, decide_False by done.
    rewrite Hdom' by set_solver. done.
  - exists ft. split_and!; try done.
    + by eapply stream_map_names.
    + unfold rest_of. rewrite <-list_fmap_compose. done.
Qed.
End Metrics.

Lemma C10_paired_layers_witness :
  let stream := [("layer0", demo_hidden); ("layer1", demo_hidden)] in
  ∃ st' bo,
    @process_batch demo demo_lens new_stats demo_batch demo_logits stream
      = Ok (st', bo) ∧
    dom (dd_get bo "lens_kl") = {["layer0"]} ∧
    length (first_token_stats st') = 1.
Proof.
  intros stream.
  assert (∃ x, @process_batch demo demo_lens new_stats demo_batch demo_logits
                 stream = Ok x) as [[st' bo] Hp].
  { apply is_Ok_inv. vm_compute. exact I. }
  exists st', bo. split; [exact Hp|].
  destruct (C10_paired_layers _ _ _ _ _ _ _ Hp)
    as (_ & _ & _ & _ & Hkl & _ & _ & ft & _ & _ & _ & Hfirst & _).
  split.
  - rewrite Hkl. vm_compute. reflexivity.
  - rewrite Hfirst. reflexivity.
Defined.

Section CrossEntropy.
Local Open Scope R_scope.

Lemma zipM_app {A B C} (f : A → B → result C) xs1 xs2 ys1 ys2 zs :
  length xs1 = length ys1 →
  zipM f (xs1 ++ xs2) (ys1 ++ ys2) = Ok zs →
  ∃ zs1 zs2, zs = zs1 ++ zs2 ∧ zipM f xs1 ys1 = Ok zs1 ∧
             zipM f xs2 ys2 = Ok zs2.
Proof.
  revert ys1 zs. induction xs1 as [|x xs1 IH]; intros [|y ys1] zs Hlen Hz;
    try done.
  - by exists [], zs.
  - cbn [app zipM] in Hz. inv_ok. subst.
    injection Hlen as Hlen.
    destruct (IH ys1 _ Hlen ltac:(eassumption)) as (zs1 & zs2 & -> & Hz1 & Hz2).
    eexists (_ :: zs1), zs2. split; [done|]. split; [|done].
    cbn [zipM]. rewrite H. bind_simpl. by rewrite Hz1.
Qed.

Lemma zipM_concat {A B C} (f : A → B → result C) xss yss zs :
  Forall2 (λ xs ys, length xs = length ys) xss yss →
  zipM f (concat xss) (concat yss) = Ok zs →
  ∃ zss, zs = concat zss ∧ Forall3 (λ xs ys zs', zipM f xs ys = Ok zs') xss yss zss.
Proof.
  intros Hshape. revert zs.
  induction Hshape as [|xs ys xss yss Hlen _ IH]; intros zs Hz.
  - injection Hz as <-. exists []. split; [done|constructor].
  - simpl in Hz. apply zipM_app in Hz as (zs1 & zs2 & -> & Hz1 & Hz2); [|done].
    apply IH in Hz2 as (zss & -> & Hzss).
    exists (zs1 :: zss). split; [done|by constructor].
Qed.

Lemma at_pos_log_softmax (x : Tensor3) b s :
  at_pos (log_softmax x) b s = log_softmax_row <$> at_pos x b s.
Proof. apply at_pos_map_rows. Qed.

Lemma same_shape_log_softmax x ids : same_shape x ids → same_shape (log_softmax x) ids.
Proof.
  unfold same_shape, log_softmax, map_rows. intros Hs.
  apply Forall2_fmap_l. eapply Forall2_impl; [done|].
  intros lseq iseq Hl. simpl. by rewrite length_fmap.
Qed.

(** The cross-entropy call of the loop, on log-probabilities that have the
    shape of [input_ids] and tokens that are not the ignore index: position
    [t] is scored against token [t + 1], one loss per such position. *)
Lemma cross_entropy_shifted (x : Tensor3) (input_ids : IntTensor2) ce :
  same_shape x input_ids →
  Forall (Forall (λ y, y ≠ ignore_index)) input_ids →
  cross_entropy (flatten (maybe_shift_preds (log_softmax x) 1))
                (flatten (slice_from1 input_ids)) = Ok ce →
  scores_next_token (log_softmax x) input_ids ce.
Proof.
  intros Hshape Hign. apply same_shape_log_softmax in Hshape.
  unfold cross_entropy. case_decide as Hlen; [|done].
  unfold flatten, maybe_shift_preds, slice_from1. intros Hz.
  apply zipM_concat in Hz as (rows & -> & Hrows).
  2:{ apply Forall2_fmap, (Forall2_impl _ _ _ _ Hshape).
      intros lseq iseq Hl. rewrite length_take, length_drop. lia. }
  exists rows. split; [done|].
  assert (length rows = length input_ids) as Hlr.
  { apply Forall3_length_lr in Hrows as Hl1.
    apply Forall3_length_lm in Hrows as Hl2.
    rewrite !length_fmap in *. lia. }
  split; [done|]. intros b iseq Hb.
  destruct (Forall2_lookup_r _ _ _ _ _ Hshape Hb) as (lseq & Hlseq & Hlen').
  assert (is_Some (rows !! b)) as [row Hrow].
  { apply lookup_lt_is_Some. rewrite Hlr. by eapply lookup_lt_Some. }
  assert (zipM nll_row (take (length lseq - 1) lseq) (drop 1 iseq) = Ok row)
    as Hz.
  { eapply (Forall3_lookup_lmr _ _ _ _ b) in Hrows; [done| | |done].
    - by rewrite list_lookup_fmap, Hlseq.
    - by rewrite list_lookup_fmap, Hb. }
  exists row. split; [done|].
  destruct (zipM_length _ _ _ _ Hz) as [_ Hlrow].
  rewrite length_take in Hlrow. split; [lia|]. intros t Ht.
  pose proof (zipM_lookup _ _ _ _ t Hz) as Hzt.
  destruct (row !! t) as [v|] eqn:Hv.
  2:{ apply lookup_ge_None in Hv. lia. }
  destruct Hzt as (lrow & y & Hlrow' & Hy & Hnll).
  apply lookup_take_Some in Hlrow' as [Hlrow' _].
  rewrite lookup_drop in Hy. simpl in Hy.
  exists v. split; [done|].
  unfold token_loss, at_pos. rewrite Hlseq, Hb. simpl. rewrite Hlrow', Hy. simpl.
  assert (log_softmax_row lrow = lrow) as Hidem.
  { unfold log_softmax, map_rows in Hlseq.
    rewrite list_lookup_fmap in Hlseq.
    destruct (x !! b) as [xs|]; [|done]. simpl in Hlseq. injection Hlseq as <-.
    rewrite list_lookup_fmap in Hlrow'.
    destruct (xs !! t) as [r0|]; [|done]. simpl in Hlrow'.
    injection Hlrow' as <-. apply log_softmax_row_idem. }
  unfold nll_row in Hnll. rewrite Hidem in Hnll.
  assert (y ≠ ignore_index) as Hy'.
  { eapply Forall_lookup_1 in Hign; [|done].
    eapply Forall_lookup_1 in Hign; [|done]. done. }
  rewrite decide_False in Hnll by done.
  case_decide; [|done]. destruct (lrow !! Z.to_nat y); [|done].
  by injection Hnll as <-.
Qed.
End CrossEntropy.

Section MetricClaims.
Context `{Collaborators}.
Local Open Scope R_scope.

Lemma log_softmax_rows_same_mass (x y : list R) :
  length x = length y →
  sum_list (exp <$> log_softmax_row x) = sum_list (exp <$> log_softmax_row y).
Proof.
  destruct x as [|x0 x], y as [|y0 y]; try done. intros _.
  by rewrite !log_softmax_row_normalized.
Qed.


Lemma NoDup_paired_names lens (stream : ResidualStream Tensor3) :
  NoDup stream.*1 → NoDup (layer_names (paired lens stream)).
Proof.
  intros Hnd. rewrite paired_names, fmap_take.
  rewrite <-(take_drop (lens_len lens `min` length stream) stream.*1) in Hnd.
  by apply NoDup_app in Hnd as [? _].
Qed.

Lemma final_keys_keep bo0 ce ent m name :
  m ≠ "baseline_ce" ∧ m ≠ "baseline_entropy" ∨ name ≠ "final" →
  dd_get (dd_set (dd_set bo0 "baseline_ce" "final" (T1 ce))
                 "baseline_entropy" "final" (T2 ent)) m !! name
  = dd_get bo0 m !! name.
Proof.
  intros Hm. rewrite !dd_lookup_set. repeat case_decide; naive_solver.
Qed.



(** C6.  The labels of every cross-entropy are [input_ids] without the
    first position, flattened.  On log-probabilities of the shape of
    [input_ids], and tokens other than the ignore index, [baseline_ce] and
    [lens_ce] of a paired layer and [baseline_ce["final"]] hold, sequence
    after sequence, one loss per position that has a next token: the
    prediction at position [t] scored against the token at [t + 1].
    ([maybe_shift_preds] is modelled from the spec.) *)
Theorem C6_shifted_cross_entropy lens st batch logits stream st' bo input_ids :
  process_batch lens st batch logits stream = Ok (st', bo) →
  batch !! "input_ids" = Some input_ids →
  Forall (Forall (λ y, y ≠ ignore_index)) input_ids →
  (same_shape logits input_ids →
   ∃ ce, dd_get bo "baseline_ce" !! "final" = Some (T1 ce) ∧
     cross_entropy (flatten (maybe_shift_preds (log_softmax logits) 1))
                   (flatten (slice_from1 input_ids)) = Ok ce ∧
     scores_next_token (log_softmax logits) input_ids ce) ∧
  (NoDup stream.*1 →
   ∀ k i name h, paired lens stream !! k = Some (i, (name, h)) →
     (same_shape (lens_forward lens h i) input_ids →
      ∃ ce, dd_get bo "lens_ce" !! name = Some (T1 ce) ∧
        scores_next_token (log_softmax (lens_forward lens h i)) input_ids ce) ∧
     (name ≠ "final" → same_shape (lens_to_logits lens h) input_ids →
      ∃ ce, dd_get bo "baseline_ce" !! name = Some (T1 ce) ∧
        scores_next_token (log_softmax (lens_to_logits lens h)) input_ids ce)).
Proof.
  intros Hp Hids Hign.
  apply process_batch_Ok in Hp
    as (ids & bo0 & ft & ce & Hget & Hbo0 & _ & Hce & _ & ->).
  unfold getitem in Hget. rewrite Hids in Hget. injection Hget as <-.
  split.
  - intros Hshape. exists ce. split_and!; [|done|].
    + rewrite !dd_lookup_set.
      rewrite decide_False by (by intros [? _]). by rewrite decide_True.
    + by apply cross_entropy_shifted.
  - intros Hnd k i name h Hk.
    destruct (layers_lookup _ _ _ _ _ _ _ _ _ _ _ Hbo0
                (NoDup_paired_names _ _ Hnd) Hk)
      as (ce_b & ce_l & kl & Hb & Hl & _ & Hlb & _ & Hll & _).
    split.
    + intros Hshape. exists ce_l. split.
      * rewrite final_keys_keep by (left; done). done.
      * by apply cross_entropy_shifted.
    + intros Hname Hshape. exists ce_b. split.
      * rewrite final_keys_keep by (by right). done.
      * by apply cross_entropy_shifted.
Qed.
End MetricClaims.

Lemma demo_process_Ok :
  ∃ x, @process_batch demo demo_lens new_stats demo_batch demo_logits
         [("layer0", demo_hidden); ("layer1", demo_hidden)] = Ok x.
Proof. apply is_Ok_inv. vm_compute. exact I. Qed.





Lemma C6_shifted_cross_entropy_witness :
  ∃ st' bo ce,
    @process_batch demo demo_lens new_stats demo_batch demo_logits
      [("layer0", demo_hidden); ("layer1", demo_hidden)] = Ok (st', bo) ∧
    dd_get bo "baseline_ce" !! "final" = Some (T1 ce) ∧
    scores_next_token (log_softmax demo_logits) [[0%Z; 1%Z]] ce.
Proof.
  destruct demo_process_Ok as [[st' bo] Hp].
  assert (Forall (Forall (λ y, y ≠ ignore_index)) [[0%Z; 1%Z]]) as Hign.
  { repeat constructor; by intros [=]. }
  destruct (@C6_shifted_cross_entropy demo _ _ _ _ _ _ _ [[0%Z; 1%Z]]
              Hp eq_refl Hign) as [Hfinal _].
  destruct Hfinal as (ce & Hce & _ & Hscores).
  { repeat constructor. }
  by exists st', bo, ce.
Defined.

(** * Further properties of the loop *)

Section Extras.
Context `{Collaborators}.
Implicit Types (w : World) (od : Path).

(** ** Ranks and directories *)

(** X1.  Processes of different ranks get different output directories, and no
    file of one lies in the directory of the other. *)
Theorem output_dir_rank_disjoint args (r1 r2 : Z) :
  r1 ≠ r2 →
  output_dir args r1 ≠ output_dir args r2 ∧
  ∀ name1 name2, output_dir args r1 // name1 ≠ output_dir args r2 // name2.
Proof.
  intros Hne. unfold output_dir, path_join. split.
  - intros Heq. apply Hne. injection Heq as Heq.
    exact (inj pretty r1 r2 Heq).
  - intros name1 name2 Heq. apply Hne. injection Heq as _ Heq.
    exact (inj pretty r1 r2 Heq).
Qed.

(** ** Failures before the loop *)

(** X2.  A limit that [islice] rejects (negative, or above [sys.maxsize]) makes
    the run raise [ValueError] before anything happens: no directory, no
    call of the model, no file. *)
Theorem limit_out_of_range_raises args model data lens w n :
  args_limit args = Some n →
  (n < 0 ∨ sys_maxsize < n)%Z →
  eval_loop args model data lens w = (Raise ValueError, w).
Proof.
  intros Hlimit Hn. rewrite eval_loop_unfold. cbv zeta.
  unfold limit_batches, islice. rewrite Hlimit. simpl.
  rewrite bool_decide_eq_true_2 by (unfold sys_maxsize in Hn; lia).
  rewrite decide_False by lia. done.
Qed.

(** X3.  When the output directory's path is taken by a regular file the run
    raises [FileExistsError], and when a regular file is in the way of one
    of its parents it raises [NotADirectoryError]; in both cases the world is
    left as it was. *)
Theorem mkdir_blocked_raises args model data lens w :
  let od := output_dir args (default 0%Z (dist w)) in
  is_Ok (limit_batches args (DataLoader (shuffle data (args_seed args))
                                        (args_per_gpu_batch_size args))) →
  (∀ o, stat (fs w) od = Found (File o) →
        eval_loop args model data lens w = (Raise FileExistsError, w)) ∧
  (stat (fs w) od = ENOTDIR →
   eval_loop args model data lens w = (Raise NotADirectoryError, w)).
Proof.
  intros od Hlb. apply is_Ok_inv in Hlb as [[dl total] Hlb].
  assert (∀ e, mkdir true true (fs w) od = Raise e →
               eval_loop args model data lens w = (Raise e, w)) as Hraise.
  { intros e Hmk. rewrite eval_loop_unfold. cbv zeta. fold od.
    by rewrite Hlb, Hmk. }
  split.
  - intros o Hst. apply Hraise. unfold mkdir. destruct od as [|c up]; [done|].
    unfold mkdir_parents, os_mkdir, is_dir. rewrite Hst.
    apply stat_cons_Found in Hst as [-> ->]. done.
  - intros Hst. apply Hraise. unfold mkdir. destruct od as [|c up]; [done|].
    unfold mkdir_parents, os_mkdir, is_dir. rewrite Hst. simpl in Hst.
    destruct (stat (fs w) up) as [[|o]| |]; try done.
    by destruct (fs w !! (c :: up)).
Qed.

(** ** A batch without [input_ids] *)

(** X4.  When the first batch that lacks the field [input_ids] is reached, and
    the model accepts it, the run raises [KeyError]: the model was called on
    that batch, nothing was saved for it, and the hooks are gone. *)
Theorem missing_input_ids_raises args model data lens w
    pre batch post total w0 it1 pbar1 st1 w1 out :
  let rank := default 0%Z (dist w) in
  let od := output_dir args rank in
  limit_batches args (DataLoader (shuffle data (args_seed args))
                                 (args_per_gpu_batch_size args))
    = Ok (pre ++ batch :: post, total) →
  path_mkdir od true true w = (Ok (), w0) →
  tqdm_loop (loop_body model lens rank od) 0
    {| tqdm_total := total; tqdm_n := 0 |} new_stats pre w0
    = (Ok (it1, pbar1, st1), w1) →
  batch !! "input_ids" = None →
  forward model batch = Ok out →
  eval_loop args model data lens w
  = (Raise KeyError, with_calls w1 (calls w1 ++ [batch])) ∧
  saved (with_calls w1 (calls w1 ++ [batch])) = saved w1 ∧
  hooks w1 = hooks w.
Proof.
  intros rank od Hlb Hmk Hpre Hmiss Hfw. destruct out as [logits stream].
  rewrite path_mkdir_unfold in Hmk.
  destruct (mkdir true true (fs w) od) as [fs0|e'] eqn:Hmk'; [|done].
  injection Hmk as <-. split_and!; [|done|].
  - rewrite eval_loop_unfold. cbv zeta. fold rank od. rewrite Hlb, Hmk'.
    rewrite tqdm_loop_app, Hpre. cbn [tqdm_loop].
    rewrite M_bind_unfold, loop_body_unfold. cbv zeta. rewrite Hfw.
    unfold process_batch, getitem. by rewrite Hmiss.
  - by apply tqdm_loop_frame in Hpre as (Hh & _).
Qed.

(** ** The limit and the progress bar *)

(** X5.  A limit at or above the number of batches of the loader truncates
    nothing: a run that completes has called the model on every batch.  The
    bar's total is the limit all the same, so with a limit above the length
    the final count stays below the total: it is the number of batches, or
    0 on a disabled bar, which never counts. *)
Theorem limit_beyond_loader args model data lens w n :
  let dl := DataLoader (shuffle data (args_seed args))
                       (args_per_gpu_batch_size args) in
  args_limit args = Some n →
  (0 < n ≤ sys_maxsize)%Z → (Z.of_nat (length dl) ≤ n)%Z →
  limit_batches args dl = Ok (dl, n) ∧
  ∀ l w', eval_loop args model data lens w = (Ok l, w') →
    calls w' = calls w ++ dl ∧
    l_pbar l = {| tqdm_total := n;
                  tqdm_n := if tqdm_disable then 0 else length dl |}.
Proof.
  intros dl Hlimit Hn Hlen.
  assert (limit_batches args dl = Ok (dl, n)) as Hlb.
  { unfold limit_batches, islice. rewrite Hlimit. simpl.
    rewrite bool_decide_eq_true_2 by lia. rewrite decide_True by lia.
    by rewrite take_ge by lia. }
  split; [done|].
  intros l w' Hrun. apply eval_loop_Ok in Hrun
    as (dl' & bos & Hlb' & _ & _ & Hcalls & Hpbar & _).
  fold dl in Hlb'. rewrite Hlb in Hlb'. injection Hlb' as Hdl Htot.
  rewrite <-Hdl in Hcalls, Hpbar. by rewrite Hcalls, Hpbar, <-Htot.
Qed.
End Extras.

Section Extras2.
Context `{Collaborators}.
Implicit Types (w : World) (od : Path).

(** ** The file system and the log of saves *)

Lemma synced_refl od w : synced od w w.
Proof.
  exists []. rewrite app_nil_r. split_and!; [done|constructor|].
  cbn. by rewrite fmap_empty, (left_id_L ∅ (∪)).
Qed.

Lemma synced_trans od w1 w2 w3 :
  synced od w1 w2 → synced od w2 w3 → synced od w1 w3.
Proof.
  intros (new1 & Hs1 & Hn1 & Hf1) (new2 & Hs2 & Hn2 & Hf2).
  exists (new1 ++ new2). split_and!.
  - by rewrite Hs2, Hs1, <-app_assoc.
  - by apply Forall_app.
  - rewrite Hf2, Hf1, reverse_app, list_to_map_app, map_fmap_union.
    by rewrite (assoc_L (∪)).
Qed.

Lemma th_save_synced (o : Obj) od name w r w' :
  th_save o (od // name) w = (r, w') → synced od w w'.
Proof.
  rewrite th_save_unfold.
  destruct (write_file (fs w) (od // name) o) as [fs'|e] eqn:Hw;
    intros [= <- <-]; [|apply synced_refl].
  apply write_file_Ok in Hw as (? & ? & _ & _ & _ & ->).
  exists [(od // name, o)]. world_simpl. split_and!; [done| |].
  - constructor; [by exists name|constructor].
  - cbn. rewrite insert_empty, map_fmap_singleton.
    by rewrite insert_union_singleton_l.
Qed.

Lemma synced_calls od w l : synced od w (with_calls w l).
Proof. apply (synced_refl od w). Qed.

Lemma loop_body_synced model lens rank od pbar st batch w r w' :
  loop_body model lens rank od pbar st batch w = (r, w') → synced od w w'.
Proof.
  rewrite loop_body_unfold. cbv zeta.
  destruct (forward model batch) as [[logits stream]|e];
    [|intros [= <- <-]; apply synced_calls].
  destruct (process_batch lens st batch logits stream) as [[st1 bo]|e];
    [|intros [= <- <-]; apply synced_calls].
  destruct (write_file (fs w) _ _) as [fs1|e] eqn:Hw;
    intros [= <- <-]; [|apply synced_calls].
  apply write_file_Ok in Hw as (? & ? & _ & _ & _ & ->).
  eexists [(_, _)]. world_simpl. split_and!; [done| |].
  - constructor; [by eexists|constructor].
  - cbn. rewrite insert_empty, map_fmap_singleton.
    by rewrite insert_union_singleton_l.
Qed.

Lemma tqdm_loop_synced model lens rank od dl it_n pbar st w r w' :
  tqdm_loop (loop_body model lens rank od) it_n pbar st dl w = (r, w') →
  synced od w w'.
Proof.
  revert it_n pbar st w. induction dl as [|batch dl IH]; intros it_n pbar st w.
  - intros [= <- <-]. apply synced_refl.
  - cbn [tqdm_loop]. rewrite M_bind_unfold.
    destruct (loop_body _ _ _ _ _ _ _ w) as [[st1|e] w1] eqn:Hbody;
      apply loop_body_synced in Hbody.
    + intros Hrest. apply IH in Hrest. by eapply synced_trans.
    + by intros [= <- <-].
Qed.

Lemma save_stats_synced st od w r w' :
  save_stats st od w = (r, w') → synced od w w'.
Proof.
  unfold save_stats. rewrite M_bind_unfold.
  destruct (th_save _ (od // "first_token_stats.pt") w) as [[[]|e] w1] eqn:H1;
    apply th_save_synced in H1; [|by intros [= <- <-]].
  rewrite M_bind_unfold.
  destruct (th_save _ (od // "delta_stats.pt") w1) as [[[]|e] w2] eqn:H2;
    apply th_save_synced in H2;
    [|intros [= <- <-]; by eapply synced_trans].
  rewrite M_bind_unfold.
  destruct (th_save _ (od // "stream_stats.pt") w2) as [[[]|e] w3] eqn:H3;
    apply th_save_synced in H3;
    [|intros [= <- <-]; eauto using synced_trans].
  intros H4. apply th_save_synced in H4. eauto using synced_trans.
Qed.

(** Whatever the outcome of a run, its world is the world after the
    directory creation (or the initial one, when the run stopped before)
    plus the logged saves. *)
Lemma eval_loop_synced args model data lens w r w' :
  eval_loop args model data lens w = (r, w') →
  let od := output_dir args (default 0%Z (dist w)) in
  ∃ fs0, fs w ⊆ fs0 ∧ synced od (with_fs w fs0) w' ∧
         (fs0 = fs w ∨ mkdir true true (fs w) od = Ok fs0).
Proof.
  rewrite eval_loop_unfold. cbv zeta.
  destruct (limit_batches _ _) as [[dl total]|e].
  2:{ intros [= <- <-]. exists (fs w). rewrite with_fs_id.
      split_and!; [done|apply synced_refl|by left]. }
  destruct (mkdir true true (fs w) _) as [fs0|e] eqn:Hmk.
  2:{ intros [= <- <-]. exists (fs w). rewrite with_fs_id.
      split_and!; [done|apply synced_refl|by left]. }
  intros Hrun. exists fs0.
  split; [by apply mkdir_parents_Ok in Hmk as (_ & ? & _)|].
  split; [|by right].
  destruct (tqdm_loop _ _ _ _ _ _) as [[[[it_n pbar] st]|e] w1] eqn:Hloop;
    apply tqdm_loop_synced in Hloop; [|by injection Hrun as <- <-].
  destruct (save_stats st _ w1) as [[[]|e] w2] eqn:Hsave;
    apply save_stats_synced in Hsave; injection Hrun as <- <-;
    by eapply synced_trans.
Qed.

Lemma synced_lookup_last od w w' new pre p o post :
  saved w' = saved w ++ new →
  synced od w w' →
  new = pre ++ (p, o) :: post → p ∉ post.*1 →
  fs w' !! p = Some (File o).
Proof.
  intros Hs (new' & Hs' & _ & Hf) -> Hp.
  rewrite Hs' in Hs. apply app_inv_head in Hs as ->.
  rewrite Hf, reverse_app, reverse_cons, <-app_assoc, list_to_map_app.
  apply lookup_union_Some_l. rewrite lookup_fmap.
  rewrite lookup_union_r.
  - cbn. by rewrite lookup_insert_eq.
  - apply not_elem_of_list_to_map_1. by rewrite fmap_reverse, elem_of_reverse.
Qed.

Lemma synced_lookup_other od w w' p :
  synced od w w' → (∀ name, p ≠ od // name) → fs w' !! p = fs w !! p.
Proof.
  intros (new & _ & Hn & ->) Hp. apply lookup_union_r.
  rewrite lookup_fmap. apply fmap_None, not_elem_of_list_to_map_1.
  rewrite fmap_reverse, elem_of_reverse, list_elem_of_fmap.
  intros ([q o] & -> & Hin). rewrite Forall_forall in Hn.
  destruct (Hn _ Hin) as [name Hname]. by apply (Hp name).
Qed.

(** X6.  Every file that a run saved holds, at the end, the object of the last
    save to its path: nothing written is lost except by a later save of the
    same run to the same name. *)
Theorem files_hold_last_save args model data lens w r w' new pre p o post :
  eval_loop args model data lens w = (r, w') →
  saved w' = saved w ++ new →
  new = pre ++ (p, o) :: post → p ∉ post.*1 →
  fs w' !! p = Some (File o).
Proof.
  intros Hrun Hsaved Hnew Hp.
  apply eval_loop_synced in Hrun as (fs0 & _ & Hsync & _).
  by eapply (synced_lookup_last _ (with_fs w fs0)).
Qed.

(** X7.  A run never removes or changes an entry of the file system other than
    the direct children of its output directory, whatever its outcome. *)
Theorem untouched_outside_output_dir args model data lens w r w' p n :
  eval_loop args model data lens w = (r, w') →
  fs w !! p = Some n →
  (∀ name, p ≠ output_dir args (default 0%Z (dist w)) // name) →
  fs w' !! p = Some n.
Proof.
  intros Hrun Hp Hout.
  apply eval_loop_synced in Hrun as (fs0 & Hsub & Hsync & _).
  rewrite (synced_lookup_other _ _ _ _ Hsync Hout). world_simpl.
  by eapply lookup_weaken.
Qed.
End Extras2.

Section Extras3.
Context `{Collaborators}.
Implicit Types (w : World) (od : Path).

(** ** The names of the batch files *)

Lemma string_append_length (s t : string) :
  String.length (s +:+ t) = String.length s + String.length t.
Proof. induction s as [|c s IH]; simpl; [done|by rewrite IH]. Qed.

Lemma string_append_inj_r (s1 s2 t : string) : s1 +:+ t = s2 +:+ t → s1 = s2.
Proof.
  revert s2. induction s1 as [|c1 s1 IH]; intros [|c2 s2] Heq; [done|..].
  - apply (f_equal String.length) in Heq.
    rewrite !string_append_length in Heq. simpl in Heq. lia.
  - apply (f_equal String.length) in Heq.
    rewrite !string_append_length in Heq. simpl in Heq. lia.
  - cbn [String.append] in Heq. injection Heq as -> Heq. f_equal. by apply IH.
Qed.

Lemma batch_file_inj (k1 k2 : nat) : batch_file k1 = batch_file k2 → k1 = k2.
Proof.
  unfold batch_file. intros Heq.
  apply (inj (String.append "batch_")) in Heq.
  apply string_append_inj_r in Heq. by apply (inj pretty).
Qed.

Lemma path_join_inj od (a b : string) : od // a = od // b → a = b.
Proof. intros Heq. exact (f_equal (λ p, default "" (head p)) Heq). Qed.

Lemma batch_file_not_stats (k : nat) :
  batch_file k ∉ ["first_token_stats.pt"; "delta_stats.pt"; "stream_stats.pt";
                  "logit_stats.pt"].
Proof.
  unfold batch_file. cbn [String.append]. intros Hin.
  repeat (apply elem_of_cons in Hin as [Heq|Hin]; [discriminate Heq|]).
  by apply elem_of_nil in Hin.
Qed.

(** The counter never runs ahead: the value of [pbar.n] read by the [k]-th
    iteration (0-based) is at most [k], and the values never decrease. *)
Lemma pbar_ns_bound it n len k v :
  (n ≤ it)%nat → pbar_ns it n len !! k = Some v → (n ≤ v ≤ it + k)%nat.
Proof.
  revert it n k. induction len as [|len IH]; intros it n k Hn; [done|].
  cbn [pbar_ns]. destruct k as [|k]; simpl.
  - intros [= <-]. lia.
  - intros Hv. apply IH in Hv; destruct (tqdm_refresh (S it)); lia.
Qed.

Lemma pbar_ns_refreshed it len :
  (∀ k, tqdm_refresh k = true) → pbar_ns it it len = seq it len.
Proof.
  intros Href. revert it. induction len as [|len IH]; intros it; [done|].
  cbn [pbar_ns seq]. by rewrite Href, IH.
Qed.

Lemma zip_with_seq_imap {A B} (f : nat → A → B) (s : nat) (l : list A) :
  zip_with f (seq s (length l)) l = imap (λ k, f (s + k)) l.
Proof.
  revert s. induction l as [|x l IH]; intros s; [done|].
  simpl. f_equal; [by rewrite Nat.add_0_r|].
  rewrite IH. apply imap_ext. intros i y _. simpl. f_equal. lia.
Qed.

(** X8.  The saves of the batches come in the order of the batches, one
    each: the [k]-th save of a run that completes stores the [batch_output]
    of the [k]-th batch and goes to [batch_<n>.pt] with [n ≤ k], whatever the
    clock of the progress bar does.  The index in a file's name never
    exceeds the number of batches completed before it, and the first batch
    always goes to [batch_0.pt]. *)
Theorem batch_file_index_bound args model data lens w l w' :
  eval_loop args model data lens w = (Ok l, w') →
  let od := output_dir args (default 0%Z (dist w)) in
  ∃ dl bos,
    calls w' = calls w ++ dl ∧
    batch_steps model lens new_stats dl = Ok (l_stats l, bos) ∧
    length bos = length dl ∧
    ∀ k bo, bos !! k = Some bo →
      ∃ n, (n ≤ k)%nat ∧
        saved w' !! (length (saved w) + k)%nat
        = Some (od // batch_file n, OBatch bo).
Proof.
  intros Hrun od. apply eval_loop_Ok in Hrun
    as (dl & bos & _ & Hsteps & Hsaved & Hcalls & _).
  pose proof (batch_steps_length _ _ _ _ _ _ Hsteps) as Hlen.
  exists dl, bos. split; [exact Hcalls|]. split; [exact Hsteps|].
  split; [exact Hlen|]. intros k bo Hbo.
  assert (k < length dl)%nat as Hk.
  { rewrite <-Hlen. by eapply lookup_lt_Some. }
  assert (is_Some (pbar_ns 0 0 (length dl) !! k)) as [n Hn].
  { apply lookup_lt_is_Some. by rewrite pbar_ns_length. }
  exists n. split.
  { apply pbar_ns_bound in Hn; [lia|done]. }
  fold od in Hsaved.
  rewrite Hsaved, lookup_app_r, lookup_app_l;
    [|rewrite length_zip_with, pbar_ns_length; lia|lia].
  replace (length (saved w) + k - length (saved w))%nat with k by lia.
  rewrite lookup_zip_with, Hn. simpl. by rewrite Hbo.
Qed.

(** X9.  When the display is refreshed after every batch, the [k]-th processed
    batch is saved to [batch_<k>.pt], the names are pairwise different, and
    at the end of a run that completes every batch file holds the
    [batch_output] of its own batch. *)
Theorem batch_files_when_refreshed args model data lens w l w' :
  (∀ k, tqdm_refresh k = true) →
  eval_loop args model data lens w = (Ok l, w') →
  let od := output_dir args (default 0%Z (dist w)) in
  ∃ dl bos,
    calls w' = calls w ++ dl ∧
    batch_steps model lens new_stats dl = Ok (l_stats l, bos) ∧
    length bos = length dl ∧
    saved w' = saved w ++
      imap (λ k bo, (od // batch_file k, OBatch bo)) bos ++
      stats_files (l_stats l) od ∧
    NoDup (imap (λ k (_ : BatchOutput), od // batch_file k) bos) ∧
    ∀ k bo, bos !! k = Some bo →
      fs w' !! (od // batch_file k) = Some (File (OBatch bo)).
Proof.
  intros Href Hrun od.
  pose proof (eval_loop_synced _ _ _ _ _ _ _ Hrun) as (fs0 & _ & Hsync & _).
  apply eval_loop_Ok in Hrun
    as (dl & bos & _ & Hsteps & Hsaved & Hcalls & _).
  pose proof (batch_steps_length _ _ _ _ _ _ Hsteps) as Hlen.
  fold od in Hsaved, Hsync. rewrite pbar_ns_refreshed in Hsaved by done.
  assert (zip_with (λ n bo, (od // batch_file n, OBatch bo))
                   (seq 0 (length dl)) bos
          = imap (λ k bo, (od // batch_file k, OBatch bo)) bos) as Himap.
  { rewrite <-Hlen.
    exact (zip_with_seq_imap (λ n bo, (od // batch_file n, OBatch bo)) 0 bos). }
  rewrite Himap in Hsaved. exists dl, bos. split_and!; try done.
  - apply NoDup_alt. intros i j p.
    rewrite !list_lookup_imap.
    destruct (bos !! i); [|done]. destruct (bos !! j); [|done].
    simpl. intros Hi Hj. rewrite <-Hj in Hi. apply (inj Some) in Hi.
    by apply batch_file_inj, (path_join_inj od).
  - intros k bo Hk.
    pose proof (take_drop_middle _ _ _ Hk) as Hsplit.
    eapply (synced_lookup_last od (with_fs w fs0) w'); [done|done| |].
    + rewrite <-Hsplit at 1. rewrite imap_app, <-app_assoc. simpl.
      rewrite length_take_le by (apply lookup_lt_Some in Hk; lia).
      rewrite Nat.add_0_r. reflexivity.
    + rewrite fmap_app, fmap_imap. unfold stats_files, path_join. simpl.
      rewrite elem_of_app, elem_of_lookup_imap.
      intros [(i & x & Heq & _)|Hin].
      * apply path_join_inj, batch_file_inj in Heq. lia.
      * pose proof (batch_file_not_stats k) as Hns.
        repeat (apply elem_of_cons in Hin as [Heq|Hin];
                [apply (path_join_inj od) in Heq; apply Hns; rewrite Heq;
                 repeat first [apply list_elem_of_here|apply list_elem_of_further]|]).
        by apply elem_of_nil in Hin.
Qed.
End Extras3.

Section Extras4.
Context `{Collaborators}.
Implicit Types (w : World) (od : Path).

(** ** Runs that complete *)

Lemma write_file_keeps_files {O} (fs fs' : gmap Path (node O)) p o q :
  write_file fs p o = Ok fs' → fs !! q ≠ Some Dir → fs' !! q ≠ Some Dir.
Proof.
  rewrite write_file_Ok. intros (c & up & -> & _ & _ & ->) Hq.
  destruct (decide (c :: up = q)) as [<-|Hne].
  - by rewrite lookup_insert_eq.
  - by rewrite lookup_insert_ne.
Qed.

(** The loop goes through when its computations do and no batch file's
    name is taken by a directory. *)
Lemma tqdm_loop_total model lens rank od dl it_n pbar st st' bos w :
  batch_steps model lens st dl = Ok (st', bos) →
  is_dir (fs w) od = true →
  Forall (λ n, fs w !! (od // batch_file n) ≠ Some Dir)
         (pbar_ns it_n (tqdm_n pbar) (length dl)) →
  ∃ it' pbar' w',
    tqdm_loop (loop_body model lens rank od) it_n pbar st dl w
      = (Ok (it', pbar', st'), w') ∧
    is_dir (fs w') od = true ∧
    ∀ q, fs w !! q ≠ Some Dir → fs w' !! q ≠ Some Dir.
Proof.
  revert it_n pbar st bos w.
  induction dl as [|batch dl IH]; intros it_n pbar st bos w.
  - intros [= <- <-] Hd _. by eexists _, _, _.
  - cbn [batch_steps tqdm_loop length pbar_ns]. intros Hs Hd Hfree. inv_ok.
    destruct x as [st1 bo]. inv_ok. destruct x as [st2 bos']. inv_ok.
    simplify_eq. rename H0 into Hstep, H1 into Hrest.
    apply Forall_cons in Hfree as [Hfree0 Hfree].
    rewrite M_bind_unfold, loop_body_unfold. cbv zeta.
    unfold batch_step in Hstep. inv_ok. destruct x as [logits stream].
    rewrite H0, Hstep.
    pose proof (write_file_again (fs w) (batch_file (tqdm_n pbar)) od (OBatch bo)
                  Hd Hfree0) as Hw.
    unfold path_join. rewrite Hw.
    set (w1 := with_saved _ _).
    assert (∀ q, fs w !! q ≠ Some Dir → fs w1 !! q ≠ Some Dir) as Hkeep.
    { intros q. by apply (write_file_keeps_files _ _ _ _ _ Hw). }
    destruct (IH (S it_n)
                (if tqdm_refresh (S it_n) then tqdm_set_n pbar (S it_n) else pbar)
                _ _ w1 Hrest) as (it' & pbar' & w' & Hloop & Hd' & Hkeep').
    + subst w1. world_simpl.
      rewrite is_dir_stat, stat_insert_longer by (simpl; lia).
      by apply is_dir_stat.
    + eapply Forall_impl.
      * replace (tqdm_n (if tqdm_refresh (S it_n)
                         then tqdm_set_n pbar (S it_n) else pbar))
          with (if tqdm_refresh (S it_n) then S it_n else tqdm_n pbar)
          by (by destruct (tqdm_refresh _)).
        exact Hfree.
      * intros n. apply Hkeep.
    + exists it', pbar', w'. split_and!; [done..|]. intros q Hq. by apply Hkeep', Hkeep.
Qed.

Lemma eval_loop_total args model data lens w dl total fs0 st bos :
  let od := output_dir args (default 0%Z (dist w)) in
  limit_batches args (DataLoader (shuffle data (args_seed args))
                                 (args_per_gpu_batch_size args))
    = Ok (dl, total) →
  mkdir true true (fs w) od = Ok fs0 →
  batch_steps model lens new_stats dl = Ok (st, bos) →
  Forall (λ p, fs0 !! p ≠ Some Dir)
         (((λ n, od // batch_file n) <$> pbar_ns 0 0 (length dl)) ++
          (stats_files st od).*1) →
  ∃ w', eval_loop args model data lens w
        = (Ok {| l_total := total; l_output_dir := od;
                 l_pbar := {| tqdm_total := total;
                              tqdm_n := if tqdm_disable then 0
                                        else length dl |};
                 l_stats := st |}, w').
Proof.
  intros od Hlb Hmk Hsteps Hfree. apply Forall_app in Hfree as [Hfb Hfs].
  rewrite eval_loop_unfold. cbv zeta. fold od. rewrite Hlb, Hmk.
  destruct (tqdm_loop_total model lens (default 0%Z (dist w)) od dl 0
              {| tqdm_total := total; tqdm_n := 0 |} new_stats st bos
              (with_fs w fs0) Hsteps)
    as (it' & pbar' & w1 & Hloop & Hd1 & Hkeep).
  { world_simpl. by apply mkdir_parents_Ok in Hmk as (? & _). }
  { world_simpl. rewrite Forall_fmap in Hfb. exact Hfb. }
  rewrite Hloop.
  pose proof (λ Hdis, tqdm_loop_disabled _ _ _ _ _ _ _ _ _ _ Hdis Hloop) as Hpb.
  apply tqdm_loop_Ok in Hloop as (_ & _ & _ & _ & -> & Htot).
  destruct (save_stats_total st od w1 Hd1) as [w2 Hsave].
  { rewrite Forall_fmap in Hfs. eapply Forall_impl; [exact Hfs|].
    intros entry. apply Hkeep. }
  rewrite Hsave. exists w2.
  destruct tqdm_disable; [by rewrite Hpb|].
  unfold tqdm_set_n. by rewrite Htot.
Qed.

(** X10.  A run completes whenever the limit is accepted, the output directory
    can be created, the forward passes and the metric computations of all
    batches go through, and none of the file names it writes to is taken by
    a directory. *)
Theorem eval_loop_completes args model data lens w dl total fs0 st bos :
  let od := output_dir args (default 0%Z (dist w)) in
  limit_batches args (DataLoader (shuffle data (args_seed args))
                                 (args_per_gpu_batch_size args))
    = Ok (dl, total) →
  mkdir true true (fs w) od = Ok fs0 →
  batch_steps model lens new_stats dl = Ok (st, bos) →
  Forall (λ p, fs0 !! p ≠ Some Dir)
         (((λ n, od // batch_file n) <$> pbar_ns 0 0 (length dl)) ++
          (stats_files st od).*1) →
  ∃ l w', eval_loop args model data lens w = (Ok l, w') ∧
          l_stats l = st ∧ l_total l = total ∧ calls w' = calls w ++ dl.
Proof.
  intros od Hlb Hmk Hsteps Hfree.
  destruct (eval_loop_total args model data lens w dl total fs0 st bos
              Hlb Hmk Hsteps Hfree) as [w' Hrun].
  eexists _, w'. split; [exact Hrun|]. split_and!; [done..|].
  apply eval_loop_Ok in Hrun as (dl' & bos' & Hlb' & _ & _ & Hcalls & _).
  rewrite Hlb in Hlb'. by injection Hlb' as <-.
Qed.

End Extras4.

Section Extras5.
Context `{Collaborators}.
Local Open Scope R_scope.

(** ** The numbers of a batch *)

Lemma log_probs_nonpos (l : list R) :
  sum_list (exp <$> l) <= 1 → Forall (λ x, x <= 0) l.
Proof.
  induction l as [|x l IH]; [constructor|].
  rewrite fmap_cons, sum_list_cons. intros Hsum.
  pose proof (sum_exp_nonneg l). pose proof (exp_pos x). constructor.
  - destruct (Rle_or_lt x 0) as [|Hpos]; [done|].
    pose proof (exp_increasing 0 x Hpos) as Hinc. rewrite exp_0 in Hinc. lra.
  - apply IH. lra.
Qed.

Lemma log_softmax_row_nonpos (x : list R) :
  Forall (λ v, v <= 0) (log_softmax_row x).
Proof.
  destruct x as [|x0 x]; [constructor|]. apply log_probs_nonpos.
  by rewrite log_softmax_row_normalized.
Qed.









(** X14.  In exact real arithmetic, [final_probs] is a probability
    distribution at every position: its values are positive, at most 1, and
    sum to 1.  (Exact arithmetic only: a floating-point exponential can
    underflow to 0, and the rounded values need not sum to 1.) *)
Theorem final_probs_distribution (logits : Tensor3) b s row :
  at_pos logits b s = Some row → row ≠ [] →
  ∃ probs, at_pos (t_exp (log_softmax logits)) b s = Some probs ∧
    length probs = length row ∧
    sum_list probs = 1 ∧ Forall (λ p, 0 < p <= 1) probs.
Proof.
  intros Hrow Hne. exists (exp <$> log_softmax_row row). split_and!.
  - unfold t_exp, map_scalars. by rewrite at_pos_map_rows, at_pos_log_softmax, Hrow.
  - by rewrite length_fmap, log_softmax_row_length.
  - by apply log_softmax_row_normalized.
  - apply Forall_fmap. eapply Forall_impl; [apply log_softmax_row_nonpos|].
    intros x Hx. simpl. split; [apply exp_pos|].
    destruct Hx as [Hlt| ->]; [|rewrite exp_0; lra].
    apply exp_increasing in Hlt. rewrite exp_0 in Hlt. lra.
Qed.

End Extras5.

Section Extras6.
Context `{Collaborators}.
Local Open Scope R_scope.

(** ** Edge cases of the sequence axis *)

Lemma concat_all_nil {A} (l : list (list A)) :
  Forall (λ x, x = []) l → concat l = [].
Proof. induction 1 as [|x l -> _ IH]; [done|]. simpl. by rewrite IH. Qed.

(** X16.  Sequences of a single token have no next token to score: the
    cross-entropy of the final layer is then the empty vector, not an
    error. *)
Theorem single_token_no_loss lens st batch logits stream st' bo :
  process_batch lens st batch logits stream = Ok (st', bo) →
  Forall (λ sq, (length sq ≤ 1)%nat) logits →
  dd_get bo "baseline_ce" !! "final" = Some (T1 []).
Proof.
  intros Hp Hlen.
  apply process_batch_Ok in Hp
    as (ids & bo0 & ft & ce & _ & _ & _ & Hce & _ & ->).
  rewrite !dd_lookup_set.
  rewrite decide_False by (by intros [? _]). rewrite decide_True by done.
  do 2 f_equal. unfold cross_entropy in Hce. case_decide; [|done].
  apply zipM_length in Hce as [_ Hce]. apply nil_length_inv.
  rewrite Hce. unfold flatten, maybe_shift_preds.
  rewrite concat_all_nil; [done|].
  apply Forall_fmap. unfold log_softmax, map_rows. apply Forall_fmap.
  eapply Forall_impl; [exact Hlen|]. intros sq Hsq. simpl.
  rewrite length_fmap. apply nil_length_inv. rewrite length_take, length_fmap.
  simpl in Hsq. lia.
Qed.

Lemma select0_empty_raises {A} (x : list (list A)) :
  [] ∈ x → ∃ e, select0 x = Raise e.
Proof.
  unfold select0. induction x as [|row x IH]; [by intros ?%elem_of_nil|].
  intros [<-|Hin]%elem_of_cons; cbn [rmapM]; [by eexists|].
  destruct row as [|a row]; [by eexists|]. bind_simpl.
  destruct (IH Hin) as [e ->]. by eexists.
Qed.

(** X17.  A captured hidden state with an empty sequence makes the batch fail,
    at the latest where [x[:, 0]] has nothing to select, so no
    [batch_output] is produced. *)
Theorem empty_sequence_raises lens st batch logits stream name h :
  (name, h) ∈ stream → [] ∈ h →
  ∃ e, process_batch lens st batch logits stream = Raise e.
Proof.
  intros Hin Hempty.
  assert (∃ e, stream_map select0 stream = Raise e) as [e He].
  { unfold stream_map. induction stream as [|[name' h'] stream IH];
      [by apply elem_of_nil in Hin|].
    cbn [rmapM]. apply elem_of_cons in Hin as [[= <- <-]|Hin].
    - simpl. destruct (select0_empty_raises h Hempty) as [e ->]. by eexists.
    - simpl. destruct (select0 h'); [|by eexists]. bind_simpl.
      destruct (IH Hin) as [e ->]. by eexists. }
  unfold process_batch. cbv zeta.
  destruct (getitem batch "input_ids") as [ids|e1]; [|by eexists]. bind_simpl.
  destruct (rfoldM _ ∅ (paired lens stream)) as [bo0|e2]; [|by eexists].
  bind_simpl. rewrite He. by eexists.
Qed.

(** ** When the KL divergence vanishes *)

Lemma log_softmax_row_shift (c : R) (x : list R) :
  log_softmax_row ((λ v, v + c) <$> x) = log_softmax_row x.
Proof.
  destruct x as [|x0 x]; [done|]. set (l := x0 :: x).
  assert (0 < sum_list (exp <$> l)) as Hpos by (by apply sum_exp_pos).
  unfold log_softmax_row.
  assert (sum_list (exp <$> ((λ v, v + c) <$> l))
          = sum_list (exp <$> l) * exp c) as ->.
  { clearbody l. clear. induction l as [|y l IH]; [cbn; lra|].
    rewrite !fmap_cons, !sum_list_cons, IH, exp_plus. lra. }
  rewrite ln_mult by (done || apply exp_pos). rewrite ln_exp.
  rewrite <-list_fmap_compose. apply list_fmap_ext. intros _ v _. simpl. lra.
Qed.

Lemma fmap_minus_eq (a b : R) (x y : list R) :
  (λ v, v - a) <$> y = (λ v, v - b) <$> x → y = (λ v, v + (a - b)) <$> x.
Proof.
  revert y. induction x as [|x0 x IH]; intros [|y0 y] Heq; try done.
  rewrite !fmap_cons in Heq. injection Heq as H0 Heq.
  rewrite fmap_cons. f_equal; [lra|by apply IH].
Qed.

(** X18.  In exact real arithmetic, the KL divergence of a position, for
    lens logits and final logits of the same extent there, is zero exactly
    when the lens logits differ from the model's final logits by a constant.
    (Exact arithmetic only: rounded values can be zero, or negative, for
    other logits.) *)
Theorem kl_zero_iff_shift (x y : list R) :
  length x = length y →
  kl_row (log_softmax_row x) (log_softmax_row y) = 0 ↔
  ∃ c, y = (λ v, v + c) <$> x.
Proof.
  intros Hlen. split.
  - intros Hkl.
    apply kl_row_nonneg in Hkl;
      [|by rewrite !log_softmax_row_length|by apply log_softmax_rows_same_mass].
    eexists. by apply fmap_minus_eq.
  - intros [c ->]. rewrite log_softmax_row_shift. apply kl_row_refl.
Qed.
End Extras6.

Section Extras7.
Context {Obj : Type}.
Implicit Types (fs : gmap Path (node Obj)) (p q : Path).

(** ** Directory creation *)

Lemma os_mkdir_new fs p fs' q n :
  os_mkdir fs p = Ok fs' → fs' !! q = Some n →
  fs !! q = Some n ∨ (n = Dir ∧ q = p).
Proof.
  rewrite os_mkdir_Ok. intros (c & up & -> & _ & _ & ->).
  destruct (decide (c :: up = q)) as [<-|Hne].
  - rewrite lookup_insert_eq. intros [= <-]. by right.
  - rewrite lookup_insert_ne by done. by left.
Qed.

Lemma mkdir_parents_new fs p fs' exist_ok q n :
  mkdir_parents exist_ok fs p = Ok fs' → fs' !! q = Some n →
  fs !! q = Some n ∨ (n = Dir ∧ q `suffix_of` p).
Proof.
  revert fs fs' exist_ok. induction p as [|c up IH]; intros fs fs' exist_ok.
  - simpl. destruct exist_ok; [|done]. intros [= <-]. by left.
  - unfold mkdir_parents; fold (@mkdir_parents Obj).
    destruct (os_mkdir fs (c :: up)) as [fs1|e] eqn:Hos.
    + intros [= <-] Hq. destruct (os_mkdir_new _ _ _ _ _ Hos Hq) as [|[-> ->]];
        [by left|by right].
    + intros Hmk Hq.
      assert ((fs' = fs) ∨ ∃ fs1, mkdir_parents true fs up = Ok fs1 ∧
                 mkdir_leaf exist_ok fs1 (c :: up) = Ok fs') as [->|Hrec].
      { destruct e;
          first [ destruct (exist_ok && is_dir fs (c :: up));
                  [left; by injection Hmk as <-|discriminate Hmk]
                | right; destruct (mkdir_parents true fs up) as [fs1|];
                  [by exists fs1|discriminate Hmk] ]. }
      * by left.
      * destruct Hrec as (fs1 & H1 & Hleaf).
        apply mkdir_leaf_Ok in Hleaf as [Hos'|(_ & _ & ->)].
        -- destruct (os_mkdir_new _ _ _ _ _ Hos' Hq) as [Hq1|[-> ->]];
             [|by right].
           destruct (IH _ _ _ H1 Hq1) as [|[-> Hsuf]]; [by left|right].
           split; [done|]. by apply suffix_cons_r.
        -- destruct (IH _ _ _ H1 Hq) as [|[-> Hsuf]]; [by left|right].
           split; [done|]. by apply suffix_cons_r.
Qed.

(** X19.  [mkdir(parents=True, exist_ok=True)] keeps every entry of the file
    system as it is, and what it adds are directories: the path itself and
    ancestors of it. *)
Theorem mkdir_only_adds_directories fs p fs' :
  mkdir true true fs p = Ok fs' →
  fs ⊆ fs' ∧
  ∀ q n, fs' !! q = Some n → fs !! q = Some n ∨ (n = Dir ∧ q `suffix_of` p).
Proof.
  unfold mkdir. intros Hmk. split.
  - by apply mkdir_parents_Ok in Hmk as (_ & ? & _).
  - intros q n. by apply (mkdir_parents_new fs p fs' true).
Qed.
End Extras7.

(** ** The further properties on the concrete run *)

Lemma output_dir_rank_disjoint_witness :
  output_dir (demo_args None None) 0 ≠ output_dir (demo_args None None) 1.
Proof.
  apply (output_dir_rank_disjoint (demo_args None None) 0 1). done.
Defined.

Lemma limit_out_of_range_raises_witness :
  @eval_loop demo (demo_args (Some (-1)%Z) None) demo_model [demo_batch]
    demo_lens demo_world = (Raise ValueError, demo_world).
Proof.
  apply (@limit_out_of_range_raises demo (demo_args (Some (-1)%Z) None)
           demo_model [demo_batch] demo_lens demo_world (-1)%Z eq_refl).
  left. lia.
Defined.

Lemma mkdir_blocked_raises_witness :
  @eval_loop demo (demo_args None None) demo_model [demo_batch] demo_lens
    demo_blocked_world = (Raise NotADirectoryError, demo_blocked_world).
Proof.
  destruct (@mkdir_blocked_raises demo (demo_args None None) demo_model
              [demo_batch] demo_lens demo_blocked_world) as [_ Hdir].
  - vm_compute. exact I.
  - apply Hdir. vm_compute. reflexivity.
Defined.

Lemma missing_input_ids_raises_witness :
  (@eval_loop demo (demo_args None None) demo_model [∅] demo_lens
     demo_world).1 = Raise KeyError.
Proof.
  set (od := output_dir (demo_args None None) 0).
  assert ((path_mkdir od true true (@demo_world demo)).1 = Ok ()) as Hmk.
  { vm_compute. reflexivity. }
  apply run_eta in Hmk.
  assert (forward demo_model ∅
          = Ok (demo_logits, [("layer0", demo_hidden); ("layer1", demo_hidden)]))
    as Hfwd by (vm_compute; reflexivity).
  destruct (@missing_input_ids_raises demo (demo_args None None) demo_model
              [∅] demo_lens demo_world [] ∅ [] 1%Z _ 0%nat
              {| tqdm_total := 1; tqdm_n := 0 |} new_stats _
              (demo_logits, [("layer0", demo_hidden); ("layer1", demo_hidden)])
              eq_refl Hmk eq_refl (lookup_empty _) Hfwd) as (Hrun & _).
  by rewrite Hrun.
Defined.

Lemma limit_beyond_loader_witness :
  limit_batches (demo_args (Some 5%Z) None) [demo_batch; demo_batch]
  = Ok ([demo_batch; demo_batch], 5%Z).
Proof.
  refine (proj1 (@limit_beyond_loader demo (demo_args (Some 5%Z) None)
                   demo_model [demo_batch; demo_batch] demo_lens demo_world
                   5%Z eq_refl _ _)).
  - unfold sys_maxsize. lia.
  - simpl. lia.
Defined.

Lemma demo_stale_paths :
  (saved (@eval_loop demo_stale (demo_args None None) demo_model
            [demo_batch; demo_batch] demo_lens demo_world).2).*1
  = (λ name, output_dir (demo_args None None) 0 // name) <$>
    ["batch_0.pt"; "batch_0.pt"; "first_token_stats.pt"; "delta_stats.pt";
     "stream_stats.pt"; "logit_stats.pt"].
Proof. vm_compute. reflexivity. Qed.

Lemma files_hold_last_save_witness :
  let run := @eval_loop demo_stale (demo_args None None) demo_model
               [demo_batch; demo_batch] demo_lens demo_world in
  let p := output_dir (demo_args None None) 0 // "batch_0.pt" in
  ∃ o, saved run.2 !! 1%nat = Some (p, o) ∧ fs run.2 !! p = Some (File o).
Proof.
  intros run p. pose proof demo_stale_paths as Hpaths. fold run in Hpaths.
  assert (is_Some (saved run.2 !! 1%nat)) as [[q o] Hk].
  { apply lookup_lt_is_Some.
    rewrite <-(length_fmap fst), Hpaths. simpl. lia. }
  assert (q = p) as ->.
  { pose proof (f_equal (.!! 1%nat) Hpaths) as Hq.
    rewrite list_lookup_fmap, Hk in Hq. by injection Hq. }
  exists o. split; [exact Hk|].
  apply (@files_hold_last_save demo_stale (demo_args None None) demo_model
           [demo_batch; demo_batch] demo_lens demo_world run.1 run.2
           (saved run.2) (take 1 (saved run.2)) p o (drop 2 (saved run.2))).
  - apply surjective_pairing.
  - reflexivity.
  - symmetry. by apply take_drop_middle.
  - rewrite fmap_drop, Hpaths. unfold p, path_join. simpl.
    repeat (apply not_elem_of_cons; split; [discriminate|]).
    apply not_elem_of_nil.
Defined.

Lemma untouched_outside_output_dir_witness :
  fs (@eval_loop demo (demo_args None None) demo_model [demo_batch] demo_lens
        demo_busy_world).2 !! ["other"] = Some Dir.
Proof.
  eapply (@untouched_outside_output_dir demo (demo_args None None) demo_model
            [demo_batch] demo_lens demo_busy_world).
  - apply surjective_pairing.
  - reflexivity.
  - intros name Heq. apply (f_equal length) in Heq. discriminate Heq.
Defined.

Lemma batch_file_index_bound_witness :
  let run := @eval_loop demo_stale (demo_args None None) demo_model
               [demo_batch; demo_batch] demo_lens demo_world in
  ∃ n bo, (n ≤ 1)%nat ∧
    saved run.2 !! 1%nat
    = Some (output_dir (demo_args None None) 0 // batch_file n, OBatch bo).
Proof.
  intros run.
  assert (∃ l, run.1 = Ok l) as [l Hrun].
  { apply is_Ok_inv. vm_compute. exact I. }
  apply run_eta in Hrun.
  destruct (@batch_file_index_bound demo_stale _ _ _ _ _ _ _ Hrun)
    as (dl & bos & Hcalls & _ & Hlen & Hsaves).
  assert (length (calls run.2) = 2%nat) as Hc by (vm_compute; reflexivity).
  rewrite Hcalls, length_app in Hc. simpl in Hc.
  assert (is_Some (bos !! 1%nat)) as [bo Hbo].
  { apply lookup_lt_is_Some. lia. }
  destruct (Hsaves 1%nat bo Hbo) as (n & Hn & Hsave).
  exists n, bo. split; [exact Hn|exact Hsave].
Defined.

Lemma batch_files_when_refreshed_witness :
  let run := @eval_loop demo (demo_args None None) demo_model
               [demo_batch; demo_batch] demo_lens demo_world in
  ∃ bo, fs run.2 !! (output_dir (demo_args None None) 0 // batch_file 1)
        = Some (File (OBatch bo)).
Proof.
  intros run.
  assert (∃ l, run.1 = Ok l) as [l Hrun].
  { apply is_Ok_inv. vm_compute. exact I. }
  apply run_eta in Hrun.
  destruct (@batch_files_when_refreshed demo _ _ _ _ _ _ _ (λ _, eq_refl) Hrun)
    as (dl & bos & Hcalls & _ & Hlen & _ & _ & Hfiles).
  assert (length (calls run.2) = 2%nat) as Hc by (vm_compute; reflexivity).
  rewrite Hcalls, length_app in Hc. simpl in Hc.
  assert (is_Some (bos !! 1%nat)) as [bo Hbo].
  { apply lookup_lt_is_Some. lia. }
  exists bo. exact (Hfiles 1%nat bo Hbo).
Defined.

Lemma eval_loop_completes_witness :
  ∃ l w', @eval_loop demo (demo_args None None) demo_model [demo_batch]
            demo_lens demo_world = (Ok l, w').
Proof.
  set (od := output_dir (demo_args None None) 0).
  assert (∃ fs0, mkdir true true (fs (@demo_world demo)) od = Ok fs0)
    as [fs0 Hmk].
  { apply is_Ok_inv. vm_compute. exact I. }
  assert (∃ x, @batch_steps demo demo_model demo_lens new_stats [demo_batch]
                 = Ok x) as [[st bos] Hsteps].
  { apply is_Ok_inv. vm_compute. exact I. }
  destruct (@eval_loop_completes demo (demo_args None None) demo_model
              [demo_batch] demo_lens demo_world [demo_batch] 1%Z fs0 st bos
              eq_refl Hmk Hsteps) as (l & w' & Hrun & _).
  - apply mkdir_parents_Ok in Hmk as (_ & _ & Hsame & _).
    apply Forall_forall. intros p Hp.
    rewrite Hsame; [done|].
    apply elem_of_app in Hp as [Hp|Hp].
    + apply list_elem_of_fmap in Hp as (n & -> & _). simpl. lia.
    + apply list_elem_of_fmap in Hp as (entry & -> & Hin).
      unfold stats_files in Hin.
      repeat (apply elem_of_cons in Hin as [->|Hin]; [simpl; lia|]).
      by apply elem_of_nil in Hin.
  - exists l, w'. exact Hrun.
Defined.



Lemma final_probs_distribution_witness :
  ∃ probs, at_pos (t_exp (log_softmax demo_logits)) 0 1 = Some probs ∧
           sum_list probs = 1%R.
Proof.
  destruct (final_probs_distribution demo_logits 0 1 [0%R; 0%R] eq_refl
              ltac:(done)) as (probs & Hp & _ & Hsum & _).
  exists probs. split; [exact Hp|exact Hsum].
Defined.

Lemma single_token_no_loss_witness :
  ∃ st' bo,
    @process_batch demo demo_short_lens new_stats demo_short_batch
      demo_short_logits [("layer0", demo_short_hidden)] = Ok (st', bo) ∧
    dd_get bo "baseline_ce" !! "final" = Some (T1 []).
Proof.
  assert (∃ x, @process_batch demo demo_short_lens new_stats demo_short_batch
                 demo_short_logits [("layer0", demo_short_hidden)] = Ok x)
    as [[st' bo] Hp].
  { apply is_Ok_inv. vm_compute. exact I. }
  exists st', bo. split; [exact Hp|].
  apply (@single_token_no_loss demo _ _ _ _ _ _ _ Hp).
  repeat constructor.
Defined.

Lemma empty_sequence_raises_witness :
  ∃ e, @process_batch demo demo_lens new_stats demo_batch demo_logits
         [("layer0", [[]])] = Raise e.
Proof.
  apply (@empty_sequence_raises demo _ _ _ _ _ "layer0" [[]]).
  - apply list_elem_of_here.
  - apply list_elem_of_here.
Defined.

Lemma kl_zero_iff_shift_witness :
  kl_row (log_softmax_row [0%R; 1%R])
         (log_softmax_row ((λ v, (v + 1)%R) <$> [0%R; 1%R])) = 0%R.
Proof.
  refine (proj2 (kl_zero_iff_shift [0%R; 1%R]
                   (list_fmap R R (λ v, (v + 1)%R) [0%R; 1%R]) eq_refl) _).
  exists 1%R. reflexivity.
Defined.

Lemma mkdir_only_adds_directories_witness :
  ∃ fs' : gmap Path (node unit),
    mkdir true true ∅ ["b"; "a"] = Ok fs' ∧
    ∀ q n, fs' !! q = Some n → n = Dir ∧ q `suffix_of` ["b"; "a"].
Proof.
  assert (∃ fs' : gmap Path (node unit), mkdir true true ∅ ["b"; "a"] = Ok fs')
    as [fs' Hmk].
  { apply is_Ok_inv. vm_compute. exact I. }
  exists fs'. split; [exact Hmk|].
  destruct (mkdir_only_adds_directories _ _ _ Hmk) as [_ Hnew].
  intros q n Hq. destruct (Hnew q n Hq) as [Hold|?]; [|done].
  by rewrite lookup_empty in Hold.
Defined.
